(** * The Angular template printer of ngx-lint (prettier/angular-prettier-plugin.js)

    A shallow embedding of the printer's functions and the properties its
    specification states about them.

    JavaScript strings are sequences of UTF-16 code units: a string is a
    [list N].  The patterns of the source are written as terms of a small
    regular-expression syntax and run by a backtracking matcher that follows
    the order of ECMAScript's (alternatives left to right, greedy and lazy
    quantifiers, capture groups, [^], [$] and [\b]). *)

From Stdlib Require Import String Ascii NArith Bool Lia Arith List.
Import ListNotations.

Set Warnings "-register-all".

(* ================================================================== *)
(** ** Strings *)

Module Js.

Definition jsstring := list N.

(** A literal of the source, as code units. *)
Definition js (s : string) : jsstring :=
  map N_of_ascii (list_ascii_of_string s).

Fixpoint streq (a b : jsstring) : bool :=
  match a, b with
  | [], [] => true
  | x :: a', y :: b' => N.eqb x y && streq a' b'
  | _, _ => false
  end.

(** Truthiness of a string: the empty string is the only falsy one. *)
Definition truthy (s : jsstring) : bool :=
  match s with [] => false | _ :: _ => true end.

(** [\s]: WhiteSpace and LineTerminator of ECMAScript; [trim] removes the
    same set. *)
Definition isSpace (c : N) : bool :=
  ((9 <=? c) && (c <=? 13) || (c =? 32) || (c =? 160) || (c =? 5760)
   || (8192 <=? c) && (c <=? 8202) || (c =? 8232) || (c =? 8233)
   || (c =? 8239) || (c =? 8287) || (c =? 12288) || (c =? 65279))%N.

(** LineTerminator: what [.] does not match and what [^] looks at under the
    [m] flag. *)
Definition isLineTerminator (c : N) : bool :=
  ((c =? 10) || (c =? 13) || (c =? 8232) || (c =? 8233))%N.

(** [.] *)
Definition isDot (c : N) : bool := negb (isLineTerminator c).

(** [[\s\S]] *)
Definition isAny (c : N) : bool := isSpace c || negb (isSpace c).

(** [\w] *)
Definition isWord (c : N) : bool :=
  ((65 <=? c) && (c <=? 90) || (97 <=? c) && (c <=? 122)
   || (48 <=? c) && (c <=? 57) || (c =? 95))%N.

(** [\d] *)
Definition isDigit (c : N) : bool := ((48 <=? c) && (c <=? 57))%N.

(** [[\s\n\r]] *)
Definition isSpaceNR (c : N) : bool :=
  (isSpace c || (c =? 10) || (c =? 13))%N.

Fixpoint trimStart (s : jsstring) : jsstring :=
  match s with
  | c :: s' => if isSpace c then trimStart s' else s
  | [] => []
  end.

Definition trimEnd (s : jsstring) : jsstring := rev (trimStart (rev s)).

(** [String.prototype.trim] *)
Definition trim (s : jsstring) : jsstring := trimEnd (trimStart s).

(** [Array.prototype.join] *)
Fixpoint join (sep : jsstring) (l : list jsstring) : jsstring :=
  match l with
  | [] => []
  | [x] => x
  | x :: l' => x ++ sep ++ join sep l'
  end.

(** [s.slice(a, -b)] for the two uses of the source, [slice(0, -1)] and
    [slice(2, -2)]. *)
Definition sliceEnds (a b : nat) (s : jsstring) : jsstring :=
  skipn a (firstn (length s - b) s).

Fixpoint uintChars (d : Decimal.uint) : jsstring :=
  match d with
  | Decimal.Nil => []
  | Decimal.D0 d => 48%N :: uintChars d
  | Decimal.D1 d => 49%N :: uintChars d
  | Decimal.D2 d => 50%N :: uintChars d
  | Decimal.D3 d => 51%N :: uintChars d
  | Decimal.D4 d => 52%N :: uintChars d
  | Decimal.D5 d => 53%N :: uintChars d
  | Decimal.D6 d => 54%N :: uintChars d
  | Decimal.D7 d => 55%N :: uintChars d
  | Decimal.D8 d => 56%N :: uintChars d
  | Decimal.D9 d => 57%N :: uintChars d
  end.

(** A non-negative integer in a template literal: its decimal digits. *)
Definition numberToString (n : nat) : jsstring := uintChars (Nat.to_uint n).

End Js.

Import Js.

(* ================================================================== *)
(** ** Regular expressions *)

Module Re.

(** The patterns of the source only quantify single-character classes, so
    the quantifiers take a class. *)
Inductive regex : Type :=
| Eps
| Chr (c : N)
| Cls (p : N -> bool)
| Seq (r1 r2 : regex)
| Alt (r1 r2 : regex)
| Star (p : N -> bool)          (* p*  , greedy *)
| Lazy (p : N -> bool)          (* p*? , lazy *)
| Grp (n : nat) (r : regex)     (* capture group number n *)
| Bol (multiline : bool)        (* ^ *)
| Eol                           (* $ without the m flag *)
| WordB.                        (* \b *)

Definition Plus (p : N -> bool) : regex := Seq (Cls p) (Star p).
Definition Opt (r : regex) : regex := Alt r Eps.

Fixpoint LitL (s : jsstring) : regex :=
  match s with
  | [] => Eps
  | c :: s' => Seq (Chr c) (LitL s')
  end.

Definition Lit (s : string) : regex := LitL (js s).

Fixpoint Seqs (l : list regex) : regex :=
  match l with
  | [] => Eps
  | [r] => r
  | r :: l' => Seq r (Seqs l')
  end.

Fixpoint Alts (l : list regex) : regex :=
  match l with
  | [] => Eps
  | [r] => r
  | r :: l' => Alt r (Alts l')
  end.

Definition captures := list (nat * jsstring).

Fixpoint getCap (n : nat) (c : captures) : option jsstring :=
  match c with
  | [] => None
  | (m, s) :: c' => if Nat.eqb m n then Some s else getCap n c'
  end.

Definition isWordOpt (c : option N) : bool :=
  match c with Some x => isWord x | None => false end.

Definition atLineStart (multiline : bool) (prev : option N) : bool :=
  match prev with
  | None => true
  | Some c => multiline && isLineTerminator c
  end.

Definition result := (jsstring * captures)%type.
Definition cont := option N -> jsstring -> captures -> option result.

Fixpoint starGreedy (p : N -> bool) (k : cont) (caps : captures)
    (prev : option N) (s : jsstring) : option result :=
  match s with
  | c :: s' =>
      if p c then
        match starGreedy p k caps (Some c) s' with
        | Some r => Some r
        | None => k prev s caps
        end
      else k prev s caps
  | [] => k prev s caps
  end.

Fixpoint starLazy (p : N -> bool) (k : cont) (caps : captures)
    (prev : option N) (s : jsstring) : option result :=
  match k prev s caps with
  | Some r => Some r
  | None =>
      match s with
      | c :: s' => if p c then starLazy p k caps (Some c) s' else None
      | [] => None
      end
  end.

(** The text a group has consumed: what lies between the place the group
    was entered and the place it was left. *)
Definition consumed (s rest : jsstring) : jsstring :=
  firstn (length s - length rest) s.

(** The backtracking matcher, in continuation-passing style: [prev] is the
    code unit before the current position, [s] the text from the current
    position on. *)
Fixpoint rx (r : regex) (prev : option N) (s : jsstring) (caps : captures)
    (k : cont) {struct r} : option result :=
  match r with
  | Eps => k prev s caps
  | Chr c =>
      match s with
      | x :: s' => if N.eqb x c then k (Some x) s' caps else None
      | [] => None
      end
  | Cls p =>
      match s with
      | x :: s' => if p x then k (Some x) s' caps else None
      | [] => None
      end
  | Seq r1 r2 => rx r1 prev s caps (fun prev' s' caps' => rx r2 prev' s' caps' k)
  | Alt r1 r2 =>
      match rx r1 prev s caps k with
      | Some res => Some res
      | None => rx r2 prev s caps k
      end
  | Star p => starGreedy p k caps prev s
  | Lazy p => starLazy p k caps prev s
  | Grp n r1 =>
      rx r1 prev s caps
        (fun prev' s' caps' => k prev' s' ((n, consumed s s') :: caps'))
  | Bol ml => if atLineStart ml prev then k prev s caps else None
  | Eol => match s with [] => k prev s caps | _ :: _ => None end
  | WordB =>
      if xorb (isWordOpt prev) (isWordOpt (hd_error s)) then k prev s caps
      else None
  end.

Definition done : cont := fun _ rest caps => Some (rest, caps).

(** A match: the text before it, the matched text, the captures and the
    text after it. *)
Record found : Type := Found {
  fpre : jsstring; fmatch : jsstring; fcaps : captures; frest : jsstring }.

(** A match attempt at the current position only. *)
Definition matchAt (r : regex) (prev : option N) (s : jsstring)
    : option result :=
  rx r prev s [] done.

(** [RegExp.prototype.exec] from a position on: the leftmost match. *)
Fixpoint search (r : regex) (prev : option N) (s : jsstring) : option found :=
  match matchAt r prev s with
  | Some (rest, caps) => Some (Found [] (consumed s rest) caps rest)
  | None =>
      match s with
      | [] => None
      | c :: s' =>
          match search r (Some c) s' with
          | Some f => Some (Found (c :: fpre f) (fmatch f) (fcaps f) (frest f))
          | None => None
          end
      end
  end.

(** [str.match(re)] without the [g] flag. *)
Definition exec (r : regex) (s : jsstring) : option found := search r None s.

(** [re.test(str)] *)
Definition test (r : regex) (s : jsstring) : bool :=
  match exec r s with Some _ => true | None => false end.

(** The code unit before the position reached after [w], when [prev] was
    the one before [w]. *)
Fixpoint lastOr (prev : option N) (w : jsstring) : option N :=
  match w with
  | [] => prev
  | c :: w' => lastOr (Some c) w'
  end.

(** All matches of a pattern with the [g] flag, left to right, none
    overlapping: the pieces between the matches and the text after the last
    one.  After an empty match the search resumes one code unit later. *)
Fixpoint scan (fuel : nat) (r : regex) (prev : option N) (s : jsstring)
    : list found * jsstring :=
  match fuel with
  | O => ([], s)
  | S fuel' =>
      match search r prev s with
      | None => ([], s)
      | Some f =>
          match fmatch f with
          | _ :: _ =>
              let (fs, tl) :=
                scan fuel' r (lastOr prev (fpre f ++ fmatch f)) (frest f) in
              (f :: fs, tl)
          | [] =>
              match frest f with
              | [] => ([f], [])
              | c :: rest' =>
                  let (fs, tl) := scan fuel' r (Some c) rest' in
                  match fs with
                  | [] => ([f], c :: tl)
                  | g :: fs' =>
                      (f :: Found (c :: fpre g) (fmatch g) (fcaps g) (frest g)
                         :: fs', tl)
                  end
              end
          end
      end
  end.

Definition scanAll (r : regex) (s : jsstring) : list found * jsstring :=
  scan (S (length s)) r None s.

(** [str.replace(re, fn)] with the [g] flag and a replacement function that
    reads and updates a state (the closure variables it assigns). *)
Fixpoint replaceFold {St : Type} (f : St -> found -> St * jsstring) (st : St)
    (fs : list found) (tl : jsstring) : St * jsstring :=
  match fs with
  | [] => (st, tl)
  | m :: fs' =>
      let (st1, rep) := f st m in
      let (st2, out) := replaceFold f st1 fs' tl in
      (st2, fpre m ++ rep ++ out)
  end.

Definition replaceSt {St : Type} (r : regex) (f : St -> found -> St * jsstring)
    (st : St) (s : jsstring) : St * jsstring :=
  let (fs, tl) := scanAll r s in replaceFold f st fs tl.

(** [str.replace(re, fn)] with the [g] flag and a pure replacement. *)
Definition replace (r : regex) (f : found -> jsstring) (s : jsstring)
    : jsstring :=
  snd (replaceSt r (fun (u : unit) m => (u, f m)) tt s).

(** [str.split(re)]: the matcher is tried at each position [q] of the
    current piece; an empty match at the start of the piece is skipped; the
    captures of each separator are spliced into the result ([None] is
    [undefined]). *)
Fixpoint splitLoop (fuel : nat) (r : regex) (groups : list nat)
    (prev : option N) (cur : jsstring) (s : jsstring)
    : list (option jsstring) :=
  match fuel with
  | O => [Some (cur ++ s)]
  | S fuel' =>
      match s with
      | [] => [Some cur]
      | c :: s' =>
          match matchAt r prev s with
          | None => splitLoop fuel' r groups (Some c) (cur ++ [c]) s'
          | Some (rest, caps) =>
              match consumed s rest, cur with
              | [], [] => splitLoop fuel' r groups (Some c) (cur ++ [c]) s'
              | [], _ :: _ =>
                  Some cur :: map (fun n => getCap n caps) groups
                    ++ splitLoop fuel' r groups (Some c) [c] s'
              | (_ :: _) as w, _ =>
                  Some cur :: map (fun n => getCap n caps) groups
                    ++ splitLoop fuel' r groups (lastOr prev w) [] rest
              end
          end
      end
  end.

Definition split (r : regex) (groups : list nat) (s : jsstring)
    : list (option jsstring) :=
  match s with
  | [] => match matchAt r None [] with Some _ => [] | None => [Some []] end
  | _ :: _ => splitLoop (S (length s)) r groups None [] s
  end.

End Re.

Import Re.

(* ================================================================== *)
(** ** The printer *)

Module Printer.

Definition SP : N := 32.
Definition NL : N := 10.
Definition QUOTE : N := 34.

(** A value spliced into a template literal: [undefined] prints as the
    word. *)
Definition tpl (v : option jsstring) : jsstring :=
  match v with Some s => s | None => js "undefined" end.

(** An attribute: [value] is [null] ([None]) for a valueless attribute. *)
Record attr : Type := Attr { aname : jsstring; avalue : option jsstring }.

(** A node of the parser's tree, with the fields the printer reads; [None]
    is a field that is absent. *)
Inductive node : Type :=
  Node (ntype : jsstring) (nvalue : option jsstring) (nname : option jsstring)
       (nattrs : option (list attr)) (nchildren : option (list node)).

Definition ntype (n : node) := let 'Node t _ _ _ _ := n in t.
Definition nvalue (n : node) := let 'Node _ v _ _ _ := n in v.
Definition nname (n : node) := let 'Node _ _ x _ _ := n in x.
Definition nattrs (n : node) := let 'Node _ _ _ a _ := n in a.
Definition nchildren (n : node) := let 'Node _ _ _ _ c := n in c.

(** The object literal [{ type: 'text', value }]. *)
Definition textNode (value : jsstring) : node :=
  Node (js "text") (Some value) None None None.

Definition isText (n : node) : bool := streq (ntype n) (js "text").

Definition selfClosingTags : list jsstring :=
  map js ["area"; "base"; "br"; "col"; "embed"; "hr"; "img"; "input"; "link";
          "meta"; "source"; "track"; "wbr"]%string.

Definition isSelfClosingTag (name : jsstring) : bool :=
  existsb (streq name) selfClosingTags.

(** The call "text.replace(/\s+/g, ' ')" *)
Definition collapseSpaces (text : jsstring) : jsstring :=
  replace (Plus isSpace) (fun _ => [SP]) text.

(** Pattern "/^@(if|for|switch|defer|else if|else|case|default|error)\b/m" *)
Definition controlFlowRe : regex :=
  Seqs [Bol true; Lit "@";
        Grp 1 (Alts (map Lit ["if"; "for"; "switch"; "defer"; "else if";
                              "else"; "case"; "default"; "error"]%string));
        WordB].

Definition isControlFlowDirective (text : jsstring) : bool :=
  test controlFlowRe (trim (collapseSpaces text)).

(** Pattern "/^@(else if|else|placeholder|loading|error)\b/m" *)
Definition ifChainRe : regex :=
  Seqs [Bol true; Lit "@";
        Grp 1 (Alts (map Lit ["else if"; "else"; "placeholder"; "loading";
                              "error"]%string));
        WordB].

Definition isIfChainDirective (text : jsstring) : bool :=
  test ifChainRe (trim (collapseSpaces text)).

(** Pattern "/^\s*{{\s*.*?\s*}}\s*$/" *)
Definition interpolationRe : regex :=
  Seqs [Bol false; Star isSpace; Lit "{{"; Star isSpace; Lazy isDot;
        Star isSpace; Lit "}}"; Star isSpace; Eol].

Definition isInterpolation (text : jsstring) : bool :=
  test interpolationRe text.

Definition formatAttr (a : attr) : jsstring :=
  match avalue a with
  | None => aname a
  | Some v => aname a ++ js "=" ++ [QUOTE] ++ v ++ [QUOTE]
  end.

(** [indent] is [None] where the caller passes no second argument. *)
Definition formatAttributes (attrs : list attr) (indent : option jsstring)
    : jsstring :=
  match attrs with
  | [a] => formatAttr a
  | _ => join [NL] (map (fun a => tpl indent ++ formatAttr a) attrs)
  end.

(** Pattern "/^(@\w+.*?){/" *)
Definition directiveRe : regex :=
  Seqs [Bol false; Grp 1 (Seqs [Lit "@"; Plus isWord; Lazy isDot]); Lit "{"].

(** Pattern "/^(@\w+(?:\s+if)?)\s*(G)/", where the second group G is the
    dot under a star. *)
Definition directivePartsRe : regex :=
  Seqs [Bol false;
        Grp 1 (Seqs [Lit "@"; Plus isWord; Opt (Seq (Plus isSpace) (Lit "if"))]);
        Star isSpace; Grp 2 (Star isDot)].

(** [formatControlFlow(node, indent)], on the [value] of its node. *)
Definition formatControlFlow (value indent : jsstring) : jsstring :=
  let content := trim value in
  let normalizedContent := collapseSpaces content in
  match exec directiveRe normalizedContent with
  | None => indent ++ content
  | Some directiveMatch =>
      let fullMatch := fmatch directiveMatch in
      let directive := trim (sliceEnds 0 1 fullMatch) in
      let plain := indent ++ directive ++ js " {" in
      match exec directivePartsRe directive with
      | Some parts =>
          match getCap 2 (fcaps parts) with
          | Some condition =>
              if truthy condition then
                indent ++ tpl (getCap 1 (fcaps parts)) ++ [SP]
                  ++ trim condition ++ js " {"
              else plain
          | None => plain
          end
      | None => plain
      end
  end.

(** Pattern "/{{\s*(.*?)\s*}}/g" *)
Definition interpolationSpanRe : regex :=
  Seqs [Lit "{{"; Star isSpace; Grp 1 (Lazy isDot); Star isSpace; Lit "}}"].

(** The replacement function returns the same text on both of its
    branches, so [offset] and [str] are not read. *)
Definition formatInterpolation (text indent : jsstring) : jsstring :=
  indent
    ++ replace interpolationSpanRe
         (fun m => js "{{ " ++ trim (tpl (getCap 1 (fcaps m))) ++ js " }}")
         text.

(** Pattern "/{{\s*[\s\S]*?\s*}}/g" *)
Definition protectRe : regex :=
  Seqs [Lit "{{"; Star isSpace; Lazy isAny; Star isSpace; Lit "}}"].

(** Pattern "/{{[\s\S]*?}}/g" *)
Definition innerSpanRe : regex := Seqs [Lit "{{"; Lazy isAny; Lit "}}"].

(** Pattern "/(\}|\@(?:if|for|switch|defer|else if|else|case|default|error).*?{)/g" *)
Definition directiveMarkerRe : regex :=
  Seqs [Lit "@";
        Alts (map Lit ["if"; "for"; "switch"; "defer"; "else if"; "else";
                       "case"; "default"; "error"]%string);
        Lazy isDot; Lit "{"].

Definition splitRe : regex := Grp 1 (Alt (Lit "}") directiveMarkerRe).

(** Pattern "/__INTERPOLATION(\d+)__/g" *)
Definition placeholderRe : regex :=
  Seqs [Lit "__INTERPOLATION"; Grp 1 (Plus isDigit); Lit "__"].

Definition normalizeSpan (interpolation : jsstring) : jsstring :=
  let innerContent :=
    trim (replace (Plus isSpaceNR) (fun _ => [SP])
            (sliceEnds 2 2 interpolation)) in
  js "{{ " ++ innerContent ++ js " }}".

(** The replacement function of the first [replace] of [splitTextNode]; the
    state is the array [interpolations]. *)
Definition protectSpan (interpolations : list jsstring) (m : found)
    : list jsstring * jsstring :=
  let formattedMatch :=
    replace innerSpanRe (fun i => normalizeSpan (fmatch i)) (fmatch m) in
  let interpolations' := interpolations ++ [formattedMatch] in
  (interpolations',
   js "__INTERPOLATION" ++ numberToString (length interpolations' - 1)
     ++ js "__").

(** [interpolations[index]] for a string [index] of digits: the array has
    the properties named by the decimal numerals of its indices. *)
Definition arrayGet (interpolations : list jsstring) (index : jsstring)
    : option jsstring :=
  match find (fun i => streq (numberToString i) index)
             (seq 0 (length interpolations)) with
  | Some i => nth_error interpolations i
  | None => None
  end.

Definition restore (interpolations : list jsstring) (part : jsstring)
    : jsstring :=
  replace placeholderRe
    (fun m => tpl (arrayGet interpolations (tpl (getCap 1 (fcaps m))))) part.

(** [.filter(Boolean)] on what [split] returns. *)
Fixpoint filterBoolean (l : list (option jsstring)) : list jsstring :=
  match l with
  | [] => []
  | Some (c :: s) :: l' => (c :: s) :: filterBoolean l'
  | _ :: l' => filterBoolean l'
  end.

(** The body of [splitTextNode] below its two guards, on a [content] that
    is not empty: the values of the fragments. *)
Definition splitText (content : jsstring) : list jsstring :=
  let (interpolations, protectedContent) :=
    replaceSt protectRe protectSpan [] content in
  map (restore interpolations)
    (filter truthy (map trim (filterBoolean (split splitRe [1] protectedContent)))).

(** [splitTextNode]: the first guard returns the node itself; the second
    guard, [if (!content) return []], is never reached. *)
Definition splitTextNode (n : node) : list node :=
  match nvalue n with
  | Some (c :: s) => map textNode (splitText (c :: s))
  | _ => [n]
  end.

Definition hasContent (children : option (list node)) : bool :=
  match children with
  | None => false
  | Some cs =>
      existsb (fun child =>
                 if isText child then
                   match nvalue child with
                   | Some (c :: s) => truthy (trim (c :: s))
                   | _ => false
                   end
                 else true) cs
  end.

(** The branch of [formatElement] for a text node whose value is truthy. *)
Definition formatText (value indent : jsstring) : jsstring :=
  let trimmed := trim value in
  if negb (truthy trimmed) then []
  else if isControlFlowDirective trimmed then formatControlFlow value indent
  else if isInterpolation trimmed then formatInterpolation trimmed indent
  else indent ++ trimmed.

(** [formatElement({ type: 'text', value }, indent)]: the literal has no
    [name], so an empty [value] gives the empty string. *)
Definition formatFragment (value indent : jsstring) : jsstring :=
  if truthy value then formatText value indent else [].

Record block : Type := Block {
  directive : jsstring; indent : jsstring; contentIndent : jsstring }.

(** The block stack (its top first) and the lines collected so far. *)
Record loopState : Type := LoopState {
  stack : list block; lines : list jsstring }.

Definition currentIndent (st : loopState) (base : jsstring) : jsstring :=
  match stack st with
  | b :: _ => contentIndent b
  | [] => base
  end.

Definition pushLine (line : jsstring) (st : loopState) : loopState :=
  LoopState (stack st) (lines st ++ [line]).

(** [if (formatted.trim()) results.push(formatted)] *)
Definition pushIfNotBlank (formatted : jsstring) (st : loopState) : loopState :=
  if truthy (trim formatted) then pushLine formatted st else st.

Definition openBlock (value : jsstring) (base : jsstring) (st : loopState)
    : loopState :=
  let cur := currentIndent st base in
  LoopState (Block value cur (cur ++ js "  ") :: stack st)
            (lines st ++ [formatControlFlow value cur]).

Definition closer : jsstring := js "}".

(** The loop over the fragments of one text child of an element
    ([for (let j = 0; ...)] of [formatElement]). *)
Fixpoint elementParts (childBaseIndent : jsstring) (parts : list jsstring)
    (st : loopState) : loopState :=
  match parts with
  | [] => st
  | value :: rest =>
      if isControlFlowDirective value then
        elementParts childBaseIndent rest (openBlock value childBaseIndent st)
      else
        match streq value closer, stack st with
        | true, blk :: stack' =>
            match rest with
            | nextPart :: rest' =>
                if isIfChainDirective nextPart then
                  let chainedDirective := trim (formatControlFlow nextPart []) in
                  elementParts childBaseIndent rest'
                    (LoopState
                       (Block nextPart (indent blk) (indent blk ++ js "  ")
                          :: stack')
                       (lines st ++ [indent blk ++ js "} " ++ chainedDirective]))
                else
                  elementParts childBaseIndent rest
                    (LoopState stack' (lines st ++ [indent blk ++ js "}"]))
            | [] => LoopState stack' (lines st ++ [indent blk ++ js "}"])
            end
        | _, _ =>
            elementParts childBaseIndent rest
              (pushIfNotBlank
                 (formatFragment value (currentIndent st childBaseIndent)) st)
        end
  end.

(** The loop over the children of an element ([for (let i = 0; ...)] of
    [formatElement]); [fmt] is the recursive call. *)
Definition elementChildren (fmt : node -> jsstring -> jsstring)
    (childBaseIndent : jsstring) : list node -> loopState -> loopState :=
  fix loop (children : list node) (st : loopState) : loopState :=
    match children with
    | [] => st
    | child :: children' =>
        loop children'
          (match isText child, nvalue child with
           | true, Some (c :: s) =>
               elementParts childBaseIndent (splitText (c :: s)) st
           | _, _ =>
               pushIfNotBlank (fmt child (currentIndent st childBaseIndent)) st
           end)
    end.

Definition hasItems {A : Type} (l : option (list A)) : bool :=
  match l with Some (_ :: _) => true | _ => false end.

Definition items {A : Type} (l : option (list A)) : list A :=
  match l with Some x => x | None => [] end.

(** The opening tag, up to and with its [>]. *)
Definition openingTag (name : jsstring) (attrs : option (list attr))
    (elementHasContent : bool) (indent : jsstring) : jsstring :=
  let hasAttributes := hasItems attrs in
  let hasSingleAttr := hasAttributes && Nat.eqb (length (items attrs)) 1 in
  let result := indent ++ js "<" ++ name in
  if hasAttributes then
    (if hasSingleAttr then
       result ++ [SP] ++ formatAttributes (items attrs) None
     else
       let attrIndent := if elementHasContent then js "    " else js "  " in
       result ++ [NL] ++ formatAttributes (items attrs) (Some (indent ++ attrIndent)))
      ++ js ">"
  else result ++ js ">".

Fixpoint formatElement (n : node) (indent : jsstring) {struct n} : jsstring :=
  match n with
  | Node type value oname attrs children =>
      if streq type (js "comment") then
        indent ++ js "<!--" ++ tpl value ++ js "-->"
      else
        match streq type (js "text"), value with
        | true, Some (c :: s) => formatText (c :: s) indent
        | _, _ =>
            match oname with
            | Some ((_ :: _) as name) =>
                let hasAttributes := hasItems attrs in
                let hasChildren := hasItems children in
                let elementHasContent := hasContent children in
                let hasSingleAttr :=
                  hasAttributes && Nat.eqb (length (items attrs)) 1 in
                let shouldBeSingleLine :=
                  negb elementHasContent && (hasSingleAttr || negb hasAttributes) in
                let result := openingTag name attrs elementHasContent indent in
                if shouldBeSingleLine then
                  if negb (isSelfClosingTag name) then
                    result ++ js "</" ++ name ++ js ">"
                  else result
                else if negb hasChildren && isSelfClosingTag name then result
                else if negb elementHasContent then
                  result ++ [NL] ++ indent ++ js "</" ++ name ++ js ">"
                else
                  match children with
                  | Some ((_ :: _) as cs) =>
                      let childBaseIndent := indent ++ js "  " in
                      let st :=
                        elementChildren formatElement childBaseIndent cs
                          (LoopState [] []) in
                      result ++ [NL] ++ join [NL] (lines st) ++ [NL] ++ indent
                  | _ => result
                  end ++ js "</" ++ name ++ js ">"
            | _ => []
            end
        end
  end.

(** The loop of [processNode] over the fragments of a top-level text node. *)
Fixpoint rootParts (indent : jsstring) (parts : list jsstring)
    (st : loopState) : loopState :=
  match parts with
  | [] => st
  | value :: rest =>
      if streq value closer then
        match stack st with
        | blk :: stack' =>
            match rest with
            | nextNode :: rest' =>
                if isIfChainDirective nextNode then
                  let chainedDirective := trim (formatControlFlow nextNode []) in
                  rootParts indent rest'
                    (LoopState
                       (Block nextNode (Printer.indent blk)
                          (Printer.indent blk ++ js "  ") :: stack')
                       (lines st
                          ++ [Printer.indent blk ++ js "} " ++ chainedDirective]))
                else
                  rootParts indent rest
                    (LoopState stack' (lines st ++ [Printer.indent blk ++ js "}"]))
            | [] => LoopState stack' (lines st ++ [Printer.indent blk ++ js "}"])
            end
        | [] => rootParts indent rest st
        end
      else if isControlFlowDirective value then
        rootParts indent rest (openBlock value indent st)
      else
        rootParts indent rest
          (pushIfNotBlank (formatFragment value (currentIndent st indent)) st)
  end.

Definition processNode (n : node) (indent : jsstring) (st : loopState)
    : loopState :=
  if isText n then
    match nvalue n with
    | Some (c :: s) =>
        if truthy (trim (c :: s)) then rootParts indent (splitText (c :: s)) st
        else st
    | _ => st
    end
  else pushIfNotBlank (formatElement n (currentIndent st indent)) st.

Definition formatRoot (nodes : list node) (baseIndent : jsstring) : jsstring :=
  join [NL]
    (lines (fold_left (fun st n => processNode n baseIndent st) nodes
              (LoopState [] []))).

End Printer.

Import Printer.

(* ================================================================== *)
(** ** The plugin: the doctype kept by the parsers and the printer *)

Module Plugin.

(** Canonicalization under the flag [i] for the code units that the
    pattern of the doctype compares with: a small ASCII letter becomes the
    capital one, and no code unit above 127 becomes an ASCII one. *)
Definition upperAscii (c : N) : N :=
  if ((97 <=? c) && (c <=? 122))%N then (c - 32)%N else c.

(** A literal under the flag [i]. *)
Fixpoint LitCI (s : jsstring) : regex :=
  match s with
  | [] => Eps
  | c :: s' => Seq (Cls (fun x => N.eqb (upperAscii x) (upperAscii c))) (LitCI s')
  end.

Definition notGreater (c : N) : bool := negb (N.eqb c 62).

(** Pattern "/^<!DOCTYPE[^>]*>/i" *)
Definition doctypeRe : regex :=
  Seqs [Bol false; LitCI (js "<!DOCTYPE"); Star notGreater; Lit ">"].

(** The doctype that [parse] puts on the root of the tree: the text of the
    match, when there is one. *)
Definition doctypeOf (text : jsstring) : option jsstring :=
  match exec doctypeRe text with
  | Some doctypeMatch => Some (fmatch doctypeMatch)
  | None => None
  end.

(** [print] on the root node, whose [doctype] and [children] are given,
    and on another node. *)
Definition printRoot (doctype : option jsstring) (children : list node)
    : jsstring :=
  (match doctype with
   | Some (c :: d) => (c :: d) ++ [NL]
   | _ => []
   end) ++ formatRoot children [].

Definition printNode (n : node) : jsstring := formatElement n [].

End Plugin.

Import Plugin.

(* ================================================================== *)
(** ** Notions of the statements *)

(** A line break occurs in a text. *)
Definition hasNewline (s : jsstring) : Prop := In NL s.

(** A text of white space only. *)
Definition allSpace (s : jsstring) : bool := forallb isSpace s.

(** A text that the dot of a pattern runs over. *)
Definition noLineTerminator (s : jsstring) : bool := forallb isDot s.

Definition closeBrace : N := 125.

(** What the two loops do at a closer that a chained continuation follows,
    when a block is open: the block that replaces the popped one and the
    state with the merged line. *)
Definition chainedBlock (blk : block) (next : jsstring) : block :=
  Block next (indent blk) (indent blk ++ js "  ").

Definition chainedLine (blk : block) (next : jsstring) : jsstring :=
  indent blk ++ js "} " ++ trim (formatControlFlow next []).

Definition chained (blk : block) (below : list block) (next : jsstring)
    (collected : list jsstring) : loopState :=
  LoopState (chainedBlock blk next :: below)
            (collected ++ [chainedLine blk next]).

(** [matches r prev w rest caps caps']: at a position that [prev] precedes
    and [w ++ rest] follows, the pattern [r] can consume [w], and doing so
    turns the captures [caps] into [caps']. *)
Inductive matches : regex -> option N -> jsstring -> jsstring ->
                    captures -> captures -> Prop :=
| M_Eps prev rest caps : matches Eps prev [] rest caps caps
| M_Chr c prev rest caps : matches (Chr c) prev [c] rest caps caps
| M_Cls p c prev rest caps :
    p c = true -> matches (Cls p) prev [c] rest caps caps
| M_Seq r1 r2 prev w1 w2 rest caps caps1 caps2 :
    matches r1 prev w1 (w2 ++ rest) caps caps1 ->
    matches r2 (lastOr prev w1) w2 rest caps1 caps2 ->
    matches (Seq r1 r2) prev (w1 ++ w2) rest caps caps2
| M_AltL r1 r2 prev w rest caps caps' :
    matches r1 prev w rest caps caps' ->
    matches (Alt r1 r2) prev w rest caps caps'
| M_AltR r1 r2 prev w rest caps caps' :
    matches r2 prev w rest caps caps' ->
    matches (Alt r1 r2) prev w rest caps caps'
| M_Star p prev w rest caps :
    forallb p w = true -> matches (Star p) prev w rest caps caps
| M_Lazy p prev w rest caps :
    forallb p w = true -> matches (Lazy p) prev w rest caps caps
| M_Grp n r prev w rest caps caps' :
    matches r prev w rest caps caps' ->
    matches (Grp n r) prev w rest caps ((n, w) :: caps')
| M_Bol ml prev rest caps :
    atLineStart ml prev = true -> matches (Bol ml) prev [] rest caps caps
| M_Eol prev caps : matches Eol prev [] [] caps caps
| M_WordB prev rest caps :
    xorb (isWordOpt prev) (isWordOpt (hd_error rest)) = true ->
    matches WordB prev [] rest caps caps.

(** A pattern whose matches do not depend on what surrounds them. *)
Fixpoint contextFree (r : regex) : bool :=
  match r with
  | Bol _ | Eol | WordB => false
  | Seq r1 r2 | Alt r1 r2 => contextFree r1 && contextFree r2
  | Grp _ r1 => contextFree r1
  | Eps | Chr _ | Cls _ | Star _ | Lazy _ => true
  end.

(** Collapsing the runs of a class by hand: the first code unit of a run
    becomes a space, the others are dropped; [inRun] tells that the code
    unit before belonged to a run. *)
Fixpoint collapseRun (p : N -> bool) (inRun : bool) (s : jsstring)
    : jsstring :=
  match s with
  | [] => []
  | c :: s' =>
      if p c then
        if inRun then collapseRun p true s' else SP :: collapseRun p true s'
      else c :: collapseRun p false s'
  end.

(** What is left of a text after its leading run of a class. *)
Fixpoint dropRun (p : N -> bool) (s : jsstring) : jsstring :=
  match s with
  | c :: s' => if p c then dropRun p s' else s
  | [] => []
  end.

(** The shape of a collapsed text: white space is a single space, never
    followed by another. *)
Fixpoint singleSpaced (s : jsstring) : Prop :=
  match s with
  | [] => True
  | c :: s' =>
      (isSpace c = true ->
       c = SP /\ match s' with d :: _ => isSpace d = false | [] => True end)
      /\ singleSpaced s'
  end.

(** The keywords of the two directive predicates. *)
Definition controlFlowKeywords : list jsstring :=
  map js ["if"; "for"; "switch"; "defer"; "else if"; "else"; "case";
          "default"; "error"]%string.

Definition ifChainKeywords : list jsstring :=
  map js ["else if"; "else"; "placeholder"; "loading"; "error"]%string.

(** A text that starts with the at sign and a keyword at which a word
    ends. *)
Definition startsWithKeyword (kws : list jsstring) (t : jsstring) : Prop :=
  exists kw rest,
    In kw kws /\ t = js "@" ++ kw ++ rest /\ isWordOpt (hd_error rest) = false.

(** The two chain keywords that are not control-flow keywords. *)
Definition deferContinuations : list jsstring :=
  map js ["placeholder"; "loading"]%string.

Definition openBrace : N := 123.
Definition atSign : N := 64.

(** A text that starts with a given indent. *)
Definition startsWith (base l : jsstring) : Prop := exists rest, l = base ++ rest.

(** A block as the loops make them: its indent is at or under the base
    indent and its content indent is its indent and 2 spaces. *)
Definition blockUnder (base : jsstring) (b : block) : Prop :=
  startsWith base (indent b) /\ contentIndent b = indent b ++ js "  ".

(** A state of a loop that works under a base indent. *)
Definition stateUnder (base : jsstring) (st : loopState) : Prop :=
  Forall (blockUnder base) (stack st) /\ Forall (startsWith base) (lines st).

(** The state in which [formatRoot] leaves its loop. *)
Definition rootState (nodes : list node) (baseIndent : jsstring) : loopState :=
  fold_left (fun st n => processNode n baseIndent st) nodes (LoopState [] []).

(** A fragment that is neither a directive nor a closer. *)
Definition plainFragment (v : jsstring) : Prop :=
  isControlFlowDirective v = false /\ streq v closer = false.

(** The lines that plain fragments give at an indent. *)
Definition plainLines (ind : jsstring) (body : list jsstring) : list jsstring :=
  filter (fun l => truthy (trim l)) (map (fun v => formatFragment v ind) body).

(** Lines put before the lines of a state. *)
Definition prependLines (before : list jsstring) (st : loopState) : loopState :=
  LoopState (stack st) (before ++ lines st).

(** A comment node with its raw text. *)
Definition commentNode (value : jsstring) : node :=
  Node (js "comment") (Some value) None None None.

Definition commentLine (ind value : jsstring) : jsstring :=
  ind ++ js "<!--" ++ value ++ js "-->".

(** Two texts that are equal when the case of ASCII letters is left
    aside. *)
Definition sameIgnoringCase (a b : jsstring) : Prop :=
  map upperAscii a = map upperAscii b.

Definition greaterThan : N := 62.

(** The offset of the first closing delimiter, two closing braces in a
    row, in a text. *)
Fixpoint firstClosing (s : jsstring) : option nat :=
  match s with
  | [] => None
  | c :: s' =>
      match s' with
      | d :: _ =>
          if N.eqb c closeBrace && N.eqb d closeBrace then Some 0
          else option_map S (firstClosing s')
      | [] => None
      end
  end.

(** Inputs of the examples. *)
Definition ngClassAttr : attr :=
  Attr (js "class") (Some (js "a" ++ [NL] ++ js "b")).

Definition inputWithBlankChild : node :=
  Node (js "element") None (Some (js "input"))
    (Some [Attr (js "type") (Some (js "text")); Attr (js "name") (Some (js "x"))])
    (Some [textNode (js " ")]).

Definition brWithText : node :=
  Node (js "element") None (Some (js "br")) None (Some [textNode (js "v")]).

Definition divWithText (text : string) : node :=
  Node (js "element") None (Some (js "div")) None (Some [textNode (js text)]).

(* ================================================================== *)
(** ** Elements: layout of the opening and closing tags *)

Section Elements.

Variables (type name indent : jsstring) (value : option jsstring).
Variable attrs : option (list attr).
Variable children : option (list node).

(** An element node: neither a comment nor a text node, with a tag name. *)
Hypothesis not_comment : streq type (js "comment") = false.
Hypothesis not_text : streq type (js "text") = false.
Hypothesis named : name <> [].

Let elt := Node type value (Some name) attrs children.

Lemma formatElement_element :
  formatElement elt indent =
    let elementHasContent := hasContent children in
    let hasSingleAttr := hasItems attrs && Nat.eqb (length (items attrs)) 1 in
    let result := openingTag name attrs elementHasContent indent in
    if negb elementHasContent && (hasSingleAttr || negb (hasItems attrs)) then
      if negb (isSelfClosingTag name) then result ++ js "</" ++ name ++ js ">"
      else result
    else if negb (hasItems children) && isSelfClosingTag name then result
    else if negb elementHasContent then
      result ++ [NL] ++ indent ++ js "</" ++ name ++ js ">"
    else
      match children with
      | Some ((_ :: _) as cs) =>
          result ++ [NL]
            ++ join [NL]
                 (lines (elementChildren formatElement (indent ++ js "  ") cs
                           (LoopState [] [])))
            ++ [NL] ++ indent
      | _ => result
      end ++ js "</" ++ name ++ js ">".
Proof.
  subst elt. cbn [formatElement]. rewrite not_comment, not_text.
  destruct name as [|c s]; [contradiction|]. reflexivity.
Qed.

End Elements.

Lemma hasNewline_app (a b : jsstring) :
  hasNewline (a ++ b) <-> hasNewline a \/ hasNewline b.
Proof. unfold hasNewline. apply in_app_iff. Qed.

Lemma formatAttr_newline (a : attr) :
  hasNewline (formatAttr a) ->
  hasNewline (aname a) \/ exists v, avalue a = Some v /\ hasNewline v.
Proof.
  unfold formatAttr. destruct (avalue a) as [v|]; [|now left].
  rewrite !hasNewline_app. intros [H|[H|[H|[H|H]]]]; auto.
  - cbv in H. intuition discriminate.
  - cbv in H. intuition discriminate.
  - right. now exists v.
  - cbv in H. intuition discriminate.
Qed.

(** C2, as the code has it: an element with exactly one attribute and no
    meaningful content is printed as the indent, the opening tag with the
    attribute inline, and the closing tag unless the tag name is one of the
    self-closing ones.  The printer puts no line break between these parts:
    the result has one only if the indent, the tag name or the attribute's
    name or value brings it. *)
Theorem single_attribute_inline
    (type name indent : jsstring) (value : option jsstring) (a : attr)
    (children : option (list node)) :
  streq type (js "comment") = false ->
  streq type (js "text") = false ->
  name <> [] ->
  hasContent children = false ->
  let out := formatElement (Node type value (Some name) (Some [a]) children)
               indent in
  out = indent ++ js "<" ++ name ++ [SP] ++ formatAttr a ++ js ">"
          ++ (if isSelfClosingTag name then [] else js "</" ++ name ++ js ">")
  /\ (hasNewline out ->
      hasNewline indent \/ hasNewline name \/ hasNewline (aname a)
      \/ exists v, avalue a = Some v /\ hasNewline v).
Proof.
  intros Hc Ht Hn Hcont out.
  assert (E : out = indent ++ js "<" ++ name ++ [SP] ++ formatAttr a ++ js ">"
          ++ (if isSelfClosingTag name then [] else js "</" ++ name ++ js ">")).
  { subst out. rewrite formatElement_element by assumption.
    cbv zeta. rewrite Hcont. cbn [negb andb orb hasItems items length Nat.eqb].
    unfold openingTag. cbn [hasItems items length Nat.eqb andb formatAttributes].
    destruct (isSelfClosingTag name); cbn [negb];
      repeat rewrite <- app_assoc; try rewrite app_nil_r; reflexivity. }
  split; [exact E|].
  rewrite E. rewrite !hasNewline_app.
  intros [H|[H|[H|[H|[H|[H|H]]]]]]; auto.
  - cbv in H. intuition discriminate.
  - cbv in H. intuition discriminate.
  - apply formatAttr_newline in H. tauto.
  - cbv in H. intuition discriminate.
  - destruct (isSelfClosingTag name); [destruct H|].
    rewrite !hasNewline_app in H. destruct H as [H|[H|H]]; auto;
      cbv in H; intuition discriminate.
Qed.

(** The claim of C2 that the result never has a line break fails for an
    attribute whose value has one: the value is printed as it is. *)
Lemma single_attribute_newline_counterexample :
  let n := Node (js "element") None (Some (js "div")) (Some [ngClassAttr])
             None in
  hasContent (nchildren n) = false /\ length (items (nattrs n)) = 1
  /\ hasNewline (formatElement n []).
Proof. cbv. intuition. Qed.

Lemma single_attribute_inline_witness :
  let out := formatElement
               (Node (js "element") None (Some (js "button"))
                  (Some [Attr (js "(click)") (Some (js "go()"))]) None) [] in
  out = js "<button (click)=" ++ [QUOTE] ++ js "go()" ++ [QUOTE]
          ++ js "></button>"
  /\ ~ hasNewline out.
Proof.
  pose proof (single_attribute_inline (js "element") (js "button") [] None
                (Attr (js "(click)") (Some (js "go()"))) None
                eq_refl eq_refl ltac:(discriminate) eq_refl) as [E N].
  split.
  - exact E.
  - intro H. apply N in H. cbv in H.
    destruct H as [H|[H|[H|[v [Hv H]]]]]; try (intuition discriminate).
    injection Hv as <-. cbv in H. intuition discriminate.
Defined.

(** C3: an element with two or more attributes prints, after its opening
    name and a line break, one attribute per line, the lines joined by line
    breaks and each starting with the indent of the element and 4 spaces
    when the element has meaningful content, 2 spaces when it has none;
    valueless attributes are printed as their bare names. *)
Theorem multiple_attributes_one_per_line
    (type name indent : jsstring) (value : option jsstring)
    (a1 a2 : attr) (more : list attr) (children : option (list node)) :
  streq type (js "comment") = false ->
  streq type (js "text") = false ->
  name <> [] ->
  let attrs := a1 :: a2 :: more in
  let attrIndent :=
    indent ++ (if hasContent children then js "    " else js "  ") in
  exists tail,
    formatElement (Node type value (Some name) (Some attrs) children) indent
    = indent ++ js "<" ++ name ++ [NL]
        ++ join [NL] (map (fun a => attrIndent ++ formatAttr a) attrs)
        ++ js ">" ++ tail.
Proof.
  intros Hc Ht Hn attrs attrIndent.
  set (opening := indent ++ js "<" ++ name ++ [NL]
         ++ join [NL] (map (fun a => attrIndent ++ formatAttr a) attrs)
         ++ js ">").
  assert (O : openingTag name (Some attrs) (hasContent children) indent
              = opening).
  { unfold openingTag, attrs, opening.
    cbn [hasItems items length Nat.eqb andb formatAttributes tpl].
    repeat rewrite <- app_assoc. reflexivity. }
  enough (exists tail,
             formatElement (Node type value (Some name) (Some attrs) children)
               indent = opening ++ tail) as [tail E].
  { exists tail. rewrite E. unfold opening.
    repeat rewrite <- app_assoc. reflexivity. }
  rewrite formatElement_element by assumption. cbv zeta. rewrite O.
  generalize opening as o. intro o.
  destruct (negb (hasContent children)
            && (hasItems (Some attrs) && Nat.eqb (length (items (Some attrs))) 1
                || negb (hasItems (Some attrs)))).
  { destruct (negb (isSelfClosingTag name)); eexists;
      [reflexivity | symmetry; apply app_nil_r]. }
  destruct (negb (hasItems children) && isSelfClosingTag name).
  { eexists. symmetry. apply app_nil_r. }
  destruct (negb (hasContent children)).
  { eexists. reflexivity. }
  destruct children as [[|c cs]|]; repeat rewrite <- app_assoc; eexists;
    reflexivity.
Qed.

Lemma multiple_attributes_one_per_line_witness :
  exists tail,
    formatElement
      (Node (js "element") None (Some (js "app-x"))
         (Some [Attr (js "[title]") (Some (js "t")); Attr (js "disabled") None])
         (Some [textNode (js "Hi")])) (js "  ")
    = js "  <app-x" ++ [NL]
        ++ js "      [title]=" ++ [QUOTE] ++ js "t" ++ [QUOTE] ++ [NL]
        ++ js "      disabled" ++ js ">" ++ tail.
Proof.
  exact (multiple_attributes_one_per_line (js "element") (js "app-x") (js "  ")
           None (Attr (js "[title]") (Some (js "t"))) (Attr (js "disabled") None)
           [] (Some [textNode (js "Hi")]) eq_refl eq_refl ltac:(discriminate)).
Defined.

Lemma hasContent_no_items (children : option (list node)) :
  hasItems children = false -> hasContent children = false.
Proof. destruct children as [[|c cs]|]; [reflexivity|discriminate|reflexivity]. Qed.

(** C5, as the code has it: for a tag name of the self-closing set the
    result is the opening tag alone, nothing follows its [>], when the
    element has no children, and also when it has at most one attribute and
    no meaningful content.  In the other case, children and either two or
    more attributes or meaningful content, the closing tag is printed: it
    ends the result, on a line of its own at the indent, after the lines
    of the children when there is meaningful content. *)
Theorem self_closing_no_closing_tag
    (type name indent : jsstring) (value : option jsstring)
    (attrs : option (list attr)) (children : option (list node)) :
  streq type (js "comment") = false ->
  streq type (js "text") = false ->
  name <> [] ->
  isSelfClosingTag name = true ->
  let elt := Node type value (Some name) attrs children in
  let opening := openingTag name attrs (hasContent children) indent in
  let childLines :=
    lines (elementChildren formatElement (indent ++ js "  ") (items children)
             (LoopState [] [])) in
  (hasItems children = false
   \/ (hasContent children = false /\ length (items attrs) <= 1) ->
   formatElement elt indent = opening)
  /\ (hasItems children = true ->
      hasContent children = true \/ 2 <= length (items attrs) ->
      formatElement elt indent
      = opening
          ++ (if hasContent children then [NL] ++ join [NL] childLines
              else [])
          ++ [NL] ++ indent ++ js "</" ++ name ++ js ">").
Proof.
  intros Hc Ht Hn Hs elt opening childLines. subst elt opening childLines.
  rewrite formatElement_element by assumption. cbv zeta. rewrite Hs.
  split.
  - intros [Hch | [Hcont Hlen]].
    + rewrite (hasContent_no_items _ Hch), Hch. cbn [negb andb].
      destruct (_ || _); reflexivity.
    + rewrite Hcont. cbn [negb andb].
      destruct attrs as [[|a [|b l]]|]; cbn in Hlen |- *; try reflexivity.
      lia.
  - intros Hch Hcase. rewrite Hch. cbn [negb andb].
    destruct (hasContent children) eqn:Hcont.
    + cbn [negb andb]. destruct children as [[|c cs]|]; try discriminate.
      cbn [items]. now rewrite <- !app_assoc.
    + destruct Hcase as [Hcase | Hlen]; [discriminate|].
      destruct attrs as [[|a [|b l]]|]; cbn in Hlen; try lia.
      reflexivity.
Qed.

(** The claim of C5 fails for a self-closing tag name with two attributes
    and a child, here a blank text: the closing tag is printed on a line of
    its own. *)
Lemma self_closing_counterexample :
  isSelfClosingTag (js "input") = true
  /\ formatElement inputWithBlankChild []
     = openingTag (js "input") (nattrs inputWithBlankChild) false []
         ++ [NL] ++ js "</input>".
Proof. split; reflexivity. Qed.

Lemma self_closing_no_closing_tag_witness :
  formatElement
    (Node (js "element") None (Some (js "input"))
       (Some [Attr (js "type") (Some (js "text"));
              Attr (js "name") (Some (js "x"))]) None) []
  = js "<input" ++ [NL] ++ js "  type=" ++ [QUOTE] ++ js "text" ++ [QUOTE]
      ++ [NL] ++ js "  name=" ++ [QUOTE] ++ js "x" ++ [QUOTE] ++ js ">"
  /\ formatElement brWithText []
     = js "<br>" ++ [NL] ++ js "  v" ++ [NL] ++ js "</br>".
Proof.
  split.
  - exact (proj1
             (self_closing_no_closing_tag (js "element") (js "input") [] None
                (Some [Attr (js "type") (Some (js "text"));
                       Attr (js "name") (Some (js "x"))]) None
                eq_refl eq_refl ltac:(discriminate) eq_refl)
             (or_introl eq_refl)).
  - exact (proj2
             (self_closing_no_closing_tag (js "element") (js "br") [] None
                None (Some [textNode (js "v")])
                eq_refl eq_refl ltac:(discriminate) eq_refl)
             eq_refl (or_introl eq_refl)).
Defined.

(** C10: a node that is neither a comment nor a text node and whose name is
    absent or empty is printed as the empty string, whatever its attributes
    and children are.  The printer is a total function: no input makes it
    fail. *)
Theorem unnamed_node_empty
    (type indent : jsstring) (value name : option jsstring)
    (attrs : option (list attr)) (children : option (list node)) :
  streq type (js "comment") = false ->
  streq type (js "text") = false ->
  name = None \/ name = Some [] ->
  formatElement (Node type value name attrs children) indent = [].
Proof.
  intros Hc Ht Hn. cbn [formatElement]. rewrite Hc, Ht.
  destruct Hn as [-> | ->]; reflexivity.
Qed.

Lemma unnamed_node_empty_witness :
  formatElement
    (Node (js "element") None (Some [])
       (Some [Attr (js "id") (Some (js "x"))]) (Some [textNode (js "Hi")]))
    (js "  ") = [].
Proof.
  exact (unnamed_node_empty (js "element") (js "  ") None (Some [])
           (Some [Attr (js "id") (Some (js "x"))]) (Some [textNode (js "Hi")])
           eq_refl eq_refl (or_intror eq_refl)).
Defined.

(* ================================================================== *)
(** ** Trimming *)

Section Trim.

Lemma trimStart_split (s : jsstring) :
  exists w, s = w ++ trimStart s /\ allSpace w = true
            /\ match trimStart s with
               | c :: _ => isSpace c = false
               | [] => True
               end.
Proof.
  induction s as [|c s IH]; cbn [trimStart].
  - exists []. repeat split.
  - destruct (isSpace c) eqn:E.
    + destruct IH as [w [E1 [E2 E3]]]. exists (c :: w). repeat split.
      * cbn. now rewrite <- E1.
      * unfold allSpace in *. cbn. now rewrite E, E2.
      * exact E3.
    + exists []. repeat split. exact E.
Qed.

Lemma trimStart_spaces (w s : jsstring) :
  allSpace w = true -> trimStart (w ++ s) = trimStart s.
Proof.
  unfold allSpace. induction w as [|c w IH]; cbn; [reflexivity|].
  intros H. apply andb_prop in H as [H1 H2]. rewrite H1. auto.
Qed.

Lemma trimStart_head (c : N) (s : jsstring) :
  isSpace c = false -> trimStart (c :: s) = c :: s.
Proof. intros H. cbn. now rewrite H. Qed.

Lemma allSpace_app (a b : jsstring) :
  allSpace (a ++ b) = allSpace a && allSpace b.
Proof. apply forallb_app. Qed.

Lemma allSpace_rev (a : jsstring) : allSpace (rev a) = allSpace a.
Proof.
  induction a as [|c a IH]; [reflexivity|].
  cbn [rev]. rewrite allSpace_app, IH. cbn. rewrite andb_true_r.
  apply andb_comm.
Qed.

Lemma trimStart_nil (s : jsstring) :
  trimStart s = [] <-> allSpace s = true.
Proof.
  induction s as [|c s IH]; cbn; [tauto|].
  destruct (isSpace c); cbn; [exact IH|]. split; discriminate.
Qed.

Lemma trimEnd_spaces (s w : jsstring) :
  allSpace w = true -> trimEnd (s ++ w) = trimEnd s.
Proof.
  intros H. unfold trimEnd. rewrite rev_app_distr.
  rewrite trimStart_spaces; [reflexivity|]. now rewrite allSpace_rev.
Qed.

Lemma trimEnd_last (s : jsstring) (c : N) :
  isSpace c = false -> trimEnd (s ++ [c]) = s ++ [c].
Proof.
  intros H. unfold trimEnd. rewrite rev_app_distr. cbn [rev app].
  rewrite trimStart_head by exact H. cbn [rev]. now rewrite rev_involutive.
Qed.

Lemma trimEnd_nil (s : jsstring) : trimEnd s = [] <-> allSpace s = true.
Proof.
  unfold trimEnd. rewrite <- (allSpace_rev s), <- trimStart_nil.
  split; intros H.
  - apply (f_equal (@rev N)) in H. now rewrite rev_involutive in H.
  - now rewrite H.
Qed.

Lemma trimEnd_split (s : jsstring) :
  exists w, s = trimEnd s ++ w /\ allSpace w = true
            /\ match rev (trimEnd s) with
               | c :: _ => isSpace c = false
               | [] => True
               end.
Proof.
  destruct (trimStart_split (rev s)) as [w [E1 [E2 E3]]].
  exists (rev w). repeat split.
  - unfold trimEnd. rewrite <- rev_app_distr, <- E1. now rewrite rev_involutive.
  - now rewrite allSpace_rev.
  - unfold trimEnd. now rewrite rev_involutive.
Qed.

(** A text that starts and ends with something else than white space is
    left as it is. *)
Lemma trim_fixed (c d : N) (s : jsstring) :
  isSpace c = false -> isSpace d = false ->
  trim (c :: s ++ [d]) = c :: s ++ [d].
Proof.
  intros Hc Hd. unfold trim. rewrite trimStart_head by exact Hc.
  exact (trimEnd_last (c :: s) d Hd).
Qed.

Lemma trim_spaces_l (w s : jsstring) :
  allSpace w = true -> trim (w ++ s) = trim s.
Proof. intros H. unfold trim. now rewrite trimStart_spaces. Qed.

Lemma trimStart_app_keep (s t : jsstring) :
  allSpace s = false -> trimStart (s ++ t) = trimStart s ++ t.
Proof.
  induction s as [|c s IH]; cbn; [discriminate|].
  destruct (isSpace c); cbn; auto.
Qed.

Lemma trim_spaces_r (s w : jsstring) :
  allSpace w = true -> trim (s ++ w) = trim s.
Proof.
  intros H. unfold trim. destruct (allSpace s) eqn:E.
  - assert (E' : allSpace (s ++ w) = true) by now rewrite allSpace_app, E, H.
    apply trimStart_nil in E, E'. now rewrite E, E'.
  - rewrite trimStart_app_keep by exact E. now apply trimEnd_spaces.
Qed.

Lemma trim_nil (s : jsstring) : trim s = [] <-> allSpace s = true.
Proof.
  unfold trim. rewrite trimEnd_nil.
  destruct (trimStart_split s) as [w [E1 [E2 _]]].
  rewrite E1 at 2. rewrite allSpace_app, E2. reflexivity.
Qed.

Lemma trim_truthy (s : jsstring) :
  truthy (trim s) = negb (allSpace s).
Proof.
  destruct (allSpace s) eqn:E.
  - apply trim_nil in E. now rewrite E.
  - destruct (trim s) eqn:T; [|reflexivity].
    apply trim_nil in T. congruence.
Qed.

(** The shape of a text around its trimmed part. *)
Lemma trim_split (s : jsstring) :
  exists w1 w2, s = w1 ++ trim s ++ w2
                /\ allSpace w1 = true /\ allSpace w2 = true.
Proof.
  destruct (trimStart_split s) as [w1 [E1 [E2 _]]].
  destruct (trimEnd_split (trimStart s)) as [w2 [F1 [F2 _]]].
  exists w1, w2. repeat split; try assumption.
  unfold trim. now rewrite <- F1.
Qed.

End Trim.

(* ================================================================== *)
(** ** Control-flow blocks: closers and chained continuations *)

Section Blocks.

Lemma closer_not_directive : isControlFlowDirective closer = false.
Proof. reflexivity. Qed.

Lemma closer_not_chain : isIfChainDirective closer = false.
Proof. reflexivity. Qed.

Lemma elementParts_chain (base next : jsstring) (rest : list jsstring)
    (st : loopState) (blk : block) (below : list block) :
  stack st = blk :: below ->
  isIfChainDirective next = true ->
  elementParts base (closer :: next :: rest) st
  = elementParts base rest (chained blk below next (lines st)).
Proof.
  intros Hs Hn. cbn [elementParts].
  rewrite closer_not_directive, Hs, Hn. reflexivity.
Qed.

Lemma rootParts_chain (base next : jsstring) (rest : list jsstring)
    (st : loopState) (blk : block) (below : list block) :
  stack st = blk :: below ->
  isIfChainDirective next = true ->
  rootParts base (closer :: next :: rest) st
  = rootParts base rest (chained blk below next (lines st)).
Proof.
  intros Hs Hn. cbn [rootParts].
  change (streq closer closer) with true. cbv iota.
  rewrite Hs, Hn. reflexivity.
Qed.

(** A closer is never the fragment that a preceding closer consumes, so the
    fragments before it are processed on their own. *)
Lemma elementParts_before_closer (base : jsstring) (tl : list jsstring) :
  forall (n : nat) (pre : list jsstring) (st : loopState),
    length pre <= n ->
    elementParts base (pre ++ closer :: tl) st
    = elementParts base (closer :: tl) (elementParts base pre st).
Proof.
  remember (elementParts base (closer :: tl)) as K eqn:EK.
  induction n as [|n IH]; intros pre st Hlen.
  - destruct pre; [now subst K | cbn in Hlen; lia].
  - destruct pre as [|v pre]; [now subst K|].
    cbn [length] in Hlen.
    change ((v :: pre) ++ closer :: tl) with (v :: (pre ++ closer :: tl)).
    cbn [elementParts].
    destruct (isControlFlowDirective v); [apply IH; lia|].
    destruct (streq v closer); [|apply IH; lia].
    destruct (stack st) as [|blk below]; [apply IH; lia|].
    destruct pre as [|next pre]; cbn [app].
    + rewrite closer_not_chain. now subst K.
    + cbn [length] in Hlen.
      destruct (isIfChainDirective next);
        [apply (IH pre) | apply (IH (next :: pre))]; cbn [length]; lia.
Qed.

Lemma rootParts_before_closer (base : jsstring) (tl : list jsstring) :
  forall (n : nat) (pre : list jsstring) (st : loopState),
    length pre <= n ->
    rootParts base (pre ++ closer :: tl) st
    = rootParts base (closer :: tl) (rootParts base pre st).
Proof.
  remember (rootParts base (closer :: tl)) as K eqn:EK.
  induction n as [|n IH]; intros pre st Hlen.
  - destruct pre; [now subst K | cbn in Hlen; lia].
  - destruct pre as [|v pre]; [now subst K|].
    cbn [length] in Hlen.
    change ((v :: pre) ++ closer :: tl) with (v :: (pre ++ closer :: tl)).
    cbn [rootParts].
    destruct (streq v closer).
    + destruct (stack st) as [|blk below]; [apply IH; lia|].
      destruct pre as [|next pre]; cbn [app].
      * rewrite closer_not_chain. now subst K.
      * cbn [length] in Hlen.
        destruct (isIfChainDirective next);
        [apply (IH pre) | apply (IH (next :: pre))]; cbn [length]; lia.
    + destruct (isControlFlowDirective v); apply IH; lia.
Qed.

End Blocks.

(** C1, as the code has it: in the fragments of a text child of an element
    and of a top-level text, when a closer is reached while a block is open
    and a chained continuation is the next fragment, the open block is
    popped, the one line made of that block's indent, the closer, a space
    and the formatted continuation is added, the continuation is consumed,
    and the block pushed in its place has the popped block's indent and
    that indent plus 2 spaces as its content indent. *)
Theorem closer_merges_chained_continuation
    (base next : jsstring) (pre rest : list jsstring) (st : loopState) :
  isIfChainDirective next = true ->
  (forall blk below,
      stack (elementParts base pre st) = blk :: below ->
      elementParts base (pre ++ closer :: next :: rest) st
      = elementParts base rest
          (chained blk below next (lines (elementParts base pre st))))
  /\ (forall blk below,
        stack (rootParts base pre st) = blk :: below ->
        rootParts base (pre ++ closer :: next :: rest) st
        = rootParts base rest
            (chained blk below next (lines (rootParts base pre st))))
  /\ (forall blk below collected,
        let st' := chained blk below next collected in
        exists top,
          stack st' = top :: below
          /\ indent top = indent blk
          /\ contentIndent top = indent blk ++ js "  "
          /\ lines st'
             = collected
                 ++ [indent blk ++ js "} " ++ trim (formatControlFlow next [])]).
Proof.
  intros Hn. repeat split.
  - intros blk below Hs.
    rewrite (elementParts_before_closer base _ (length pre) pre st (le_n _)).
    now apply elementParts_chain.
  - intros blk below Hs.
    rewrite (rootParts_before_closer base _ (length pre) pre st (le_n _)).
    now apply rootParts_chain.
  - intros blk below collected st'. eexists. repeat split.
Qed.

(** The claim of C1 fails when no block is open at the closer: at the top
    level the closer is dropped and the continuation opens a block of its
    own; among the children of an element the closer is printed as a text
    line.  Neither adds a line that merges the two. *)
Lemma chained_continuation_counterexample :
  splitText (js "} @else {") = [closer; js "@else {"]
  /\ isIfChainDirective (js "@else {") = true
  /\ rootParts [] [closer; js "@else {"] (LoopState [] [])
     = LoopState [Block (js "@else {") [] (js "  ")] [js "@else {"]
  /\ elementParts (js "  ") [closer; js "@else {"] (LoopState [] [])
     = LoopState [Block (js "@else {") (js "  ") (js "    ")]
         [js "  }"; js "  @else {"].
Proof. repeat split; vm_compute; reflexivity. Qed.

Lemma closer_merges_chained_continuation_witness :
  let pre := [js "@if (a) {"; js "x"] in
  let blk := Block (js "@if (a) {") (js "  ") (js "    ") in
  let init := LoopState [] [] in
  elementParts (js "  ") (pre ++ closer :: js "@else {" :: [js "y"; closer]) init
  = elementParts (js "  ") [js "y"; closer]
      (chained blk [] (js "@else {") (lines (elementParts (js "  ") pre init))).
Proof.
  intros pre blk init.
  exact (proj1 (closer_merges_chained_continuation (js "  ") (js "@else {")
                  pre [js "y"; closer] init eq_refl) blk [] eq_refl).
Defined.

(* ================================================================== *)
(** ** A closer while no block is open *)

(** At the top level the closer is dropped. *)
Lemma rootParts_stray_closer (base : jsstring) (rest : list jsstring)
    (st : loopState) :
  stack st = [] ->
  rootParts base (closer :: rest) st = rootParts base rest st.
Proof.
  intros Hs. cbn [rootParts]. change (streq closer closer) with true.
  cbv iota. now rewrite Hs.
Qed.

Lemma formatFragment_closer (base : jsstring) :
  formatFragment closer base = base ++ closer.
Proof. reflexivity. Qed.

(** Among the children of an element the closer falls through to the
    branch of regular content and is printed as a line of text. *)
Lemma elementParts_stray_closer (base : jsstring) (rest : list jsstring)
    (st : loopState) :
  stack st = [] ->
  elementParts base (closer :: rest) st
  = elementParts base rest (pushLine (base ++ closer) st).
Proof.
  intros Hs. cbn [elementParts]. rewrite closer_not_directive, Hs.
  change (streq closer closer) with true. cbv iota.
  unfold currentIndent. rewrite Hs, formatFragment_closer.
  unfold pushIfNotBlank. rewrite trim_truthy, allSpace_app.
  change (allSpace closer) with false. now rewrite andb_false_r.
Qed.

(** C4 at an element whose text ends with a closer that no block matches:
    the closer is printed on a line of its own inside the element, where
    the same text at the top level loses it. *)
Theorem stray_closer_in_element_is_printed :
  formatElement (divWithText "a }") []
  = js "<div>" ++ [NL] ++ js "  a" ++ [NL] ++ js "  }" ++ [NL] ++ js "</div>"
  /\ formatElement (divWithText "a") []
     = js "<div>" ++ [NL] ++ js "  a" ++ [NL] ++ js "</div>"
  /\ formatRoot [textNode (js "a }")] [] = js "a"
  /\ formatRoot [textNode (js "a")] [] = js "a".
Proof. repeat split; vm_compute; reflexivity. Qed.

(* ================================================================== *)
(** ** The matcher and the texts a pattern matches *)

Section Matcher.

Lemma lastOr_app (prev : option N) (a b : jsstring) :
  lastOr prev (a ++ b) = lastOr (lastOr prev a) b.
Proof. revert prev. induction a as [|c a IH]; intros prev; cbn; auto. Qed.

Lemma consumed_app (w rest : jsstring) : consumed (w ++ rest) rest = w.
Proof.
  unfold consumed. rewrite length_app.
  replace (length w + length rest - length rest) with (length w) by lia.
  rewrite firstn_app, Nat.sub_diag, firstn_all. cbn. apply app_nil_r.
Qed.

Lemma starGreedy_sound (p : N -> bool) (k : cont) (caps : captures) :
  forall (s : jsstring) (prev : option N) (res : result),
    starGreedy p k caps prev s = Some res ->
    exists w rest, s = w ++ rest /\ forallb p w = true
                   /\ k (lastOr prev w) rest caps = Some res.
Proof.
  induction s as [|c s IH]; intros prev res H; cbn in H.
  - exists [], []. auto.
  - destruct (p c) eqn:Pc.
    + destruct (starGreedy p k caps (Some c) s) as [r|] eqn:E.
      * injection H as <-. destruct (IH _ _ E) as [w [rest [E1 [E2 E3]]]].
        exists (c :: w), rest. subst s. cbn. rewrite Pc. auto.
      * exists [], (c :: s). auto.
    + exists [], (c :: s). auto.
Qed.

Lemma starLazy_sound (p : N -> bool) (k : cont) (caps : captures) :
  forall (s : jsstring) (prev : option N) (res : result),
    starLazy p k caps prev s = Some res ->
    exists w rest, s = w ++ rest /\ forallb p w = true
                   /\ k (lastOr prev w) rest caps = Some res.
Proof.
  induction s as [|c s IH]; intros prev res H; cbn in H.
  - destruct (k prev [] caps) eqn:E; [|discriminate].
    injection H as <-. exists [], []. auto.
  - destruct (k prev (c :: s) caps) eqn:E.
    + injection H as <-. exists [], (c :: s). auto.
    + destruct (p c) eqn:Pc; [|discriminate].
      destruct (IH _ _ H) as [w [rest [E1 [E2 E3]]]].
      exists (c :: w), rest. subst s. cbn. rewrite Pc. auto.
Qed.

(** Whatever the matcher returns, it returns through its continuation,
    after a text that the pattern matches. *)
Theorem rx_sound (r : regex) :
  forall (prev : option N) (s : jsstring) (caps : captures) (k : cont)
         (res : result),
    rx r prev s caps k = Some res ->
    exists w rest caps',
      s = w ++ rest /\ matches r prev w rest caps caps'
      /\ k (lastOr prev w) rest caps' = Some res.
Proof.
  induction r as [|c|p|r1 IH1 r2 IH2|r1 IH1 r2 IH2|p|p|n r IH|ml| |];
    intros prev s caps k res H; cbn [rx] in H.
  - exists [], s, caps. repeat split; [constructor | exact H].
  - destruct s as [|x s]; [discriminate|].
    destruct (N.eqb_spec x c) as [->|]; [|discriminate].
    exists [c], s, caps. repeat split; [constructor | exact H].
  - destruct s as [|x s]; [discriminate|].
    destruct (p x) eqn:Px; [|discriminate].
    exists [x], s, caps. repeat split; [now constructor | exact H].
  - apply IH1 in H as [w1 [rest1 [caps1 [E1 [M1 H]]]]].
    apply IH2 in H as [w2 [rest [caps2 [E2 [M2 H]]]]].
    exists (w1 ++ w2), rest, caps2. subst. rewrite <- app_assoc.
    repeat split; [|now rewrite lastOr_app]. econstructor; eassumption.
  - destruct (rx r1 prev s caps k) as [res1|] eqn:E.
    + injection H as <-. apply IH1 in E as [w [rest [caps' [E1 [M1 E]]]]].
      exists w, rest, caps'. repeat split; auto. now apply M_AltL.
    + apply IH2 in H as [w [rest [caps' [E1 [M1 H]]]]].
      exists w, rest, caps'. repeat split; auto. now apply M_AltR.
  - apply starGreedy_sound in H as [w [rest [E1 [E2 H]]]].
    exists w, rest, caps. repeat split; auto. now constructor.
  - apply starLazy_sound in H as [w [rest [E1 [E2 H]]]].
    exists w, rest, caps. repeat split; auto. now constructor.
  - apply IH in H as [w [rest [caps' [E1 [M1 H]]]]].
    exists w, rest, ((n, w) :: caps'). subst s.
    rewrite consumed_app in H. repeat split; auto. now constructor.
  - destruct (atLineStart ml prev) eqn:E; [|discriminate].
    exists [], s, caps. repeat split; [now constructor | exact H].
  - destruct s; [|discriminate].
    exists [], [], caps. repeat split; [constructor | exact H].
  - destruct (xorb _ _) eqn:E; [|discriminate].
    exists [], s, caps. repeat split; [now constructor | exact H].
Qed.

Lemma starGreedy_complete (p : N -> bool) (k : cont) (caps : captures) :
  forall (w rest : jsstring) (prev : option N),
    forallb p w = true ->
    k (lastOr prev w) rest caps <> None ->
    starGreedy p k caps prev (w ++ rest) <> None.
Proof.
  induction w as [|c w IH]; intros rest prev Hw Hk.
  - cbn in *. destruct rest as [|c s]; cbn; [exact Hk|].
    destruct (p c); [|exact Hk].
    destruct (starGreedy p k caps (Some c) s); [discriminate | exact Hk].
  - cbn in Hw. apply andb_prop in Hw as [Pc Hw]. cbn. rewrite Pc.
    specialize (IH rest (Some c) Hw Hk).
    destruct (starGreedy p k caps (Some c) (w ++ rest)); [discriminate|].
    now contradiction IH.
Qed.

Lemma starLazy_complete (p : N -> bool) (k : cont) (caps : captures) :
  forall (w rest : jsstring) (prev : option N),
    forallb p w = true ->
    k (lastOr prev w) rest caps <> None ->
    starLazy p k caps prev (w ++ rest) <> None.
Proof.
  induction w as [|c w IH]; intros rest prev Hw Hk.
  - cbn in *. destruct rest as [|c s]; cbn.
    + destruct (k prev [] caps); [discriminate | now contradiction Hk].
    + destruct (k prev (c :: s) caps); [discriminate | now contradiction Hk].
  - cbn in Hw. apply andb_prop in Hw as [Pc Hw]. cbn. rewrite Pc.
    destruct (k prev (c :: w ++ rest) caps); [discriminate|].
    now apply IH.
Qed.

(** The matcher finds a match whenever there is one that its continuation
    accepts. *)
Theorem rx_complete (r : regex) (prev : option N) (w rest : jsstring)
    (caps caps' : captures) :
  matches r prev w rest caps caps' ->
  forall k : cont,
    k (lastOr prev w) rest caps' <> None ->
    rx r prev (w ++ rest) caps k <> None.
Proof.
  induction 1 as [prev rest caps | c prev rest caps | p c prev rest caps Pc
                  | r1 r2 prev w1 w2 rest caps caps1 caps2 M1 IH1 M2 IH2
                  | r1 r2 prev w rest caps caps' M IH
                  | r1 r2 prev w rest caps caps' M IH
                  | p prev w rest caps Hw | p prev w rest caps Hw
                  | n r prev w rest caps caps' M IH
                  | ml prev rest caps Hb | prev caps | prev rest caps Hb];
    intros k Hk; cbn [rx app].
  - exact Hk.
  - now rewrite N.eqb_refl.
  - now rewrite Pc.
  - rewrite <- app_assoc. apply IH1. apply IH2. now rewrite <- lastOr_app.
  - specialize (IH k Hk). destruct (rx r1 prev (w ++ rest) caps k);
      [discriminate | now contradiction IH].
  - destruct (rx r1 prev (w ++ rest) caps k); [discriminate | now apply IH].
  - now apply starGreedy_complete.
  - now apply starLazy_complete.
  - apply IH. now rewrite consumed_app.
  - now rewrite Hb.
  - exact Hk.
  - now rewrite Hb.
Qed.

End Matcher.

Section Search.

Variable r : regex.

Lemma matchAt_sound (prev : option N) (s rest : jsstring) (caps : captures) :
  matchAt r prev s = Some (rest, caps) ->
  exists w, s = w ++ rest /\ matches r prev w rest [] caps.
Proof.
  intros H. apply rx_sound in H as [w [rest' [caps' [E [M H]]]]].
  injection H as <- <-. now exists w.
Qed.

Lemma matchAt_complete (prev : option N) (w rest : jsstring) (caps : captures) :
  matches r prev w rest [] caps -> matchAt r prev (w ++ rest) <> None.
Proof. intros M. now apply (rx_complete _ _ _ _ _ _ M). Qed.

(** The match that [search] returns is a match of the pattern at the place
    where it says. *)
Lemma search_sound :
  forall (s : jsstring) (prev : option N) (f : found),
    search r prev s = Some f ->
    s = fpre f ++ fmatch f ++ frest f
    /\ matches r (lastOr prev (fpre f)) (fmatch f) (frest f) [] (fcaps f).
Proof.
  assert (G : forall prev s0 rest caps,
             matchAt r prev s0 = Some (rest, caps) ->
             s0 = consumed s0 rest ++ rest
             /\ matches r prev (consumed s0 rest) rest [] caps).
  { intros prev s0 rest caps H. apply matchAt_sound in H as [w [E M]].
    subst s0. rewrite consumed_app. auto. }
  induction s as [|c s IH]; intros prev f H; cbn [search] in H.
  - destruct (matchAt r prev []) as [[rest caps]|] eqn:E; [|discriminate].
    injection H as <-. now apply G.
  - destruct (matchAt r prev (c :: s)) as [[rest caps]|] eqn:E.
    + injection H as <-. now apply G.
    + destruct (search r (Some c) s) as [g|] eqn:F; [|discriminate].
      injection H as <-. apply IH in F as [E1 M].
      cbn [fpre fmatch frest fcaps lastOr app]. split; [now f_equal | exact M].
Qed.

(** [search] fails only if the matcher fails at every position. *)
Lemma search_none :
  forall (pre post : jsstring) (prev : option N),
    search r prev (pre ++ post) = None ->
    matchAt r (lastOr prev pre) post = None.
Proof.
  induction pre as [|c pre IH]; intros post prev H.
  - cbn [app lastOr] in *. destruct post as [|d post]; cbn [search] in H;
      destruct (matchAt r prev _) as [[rest caps]|]; auto; discriminate.
  - cbn [app search lastOr] in *.
    destruct (matchAt r prev (c :: pre ++ post)) as [[rest caps]|];
      [discriminate|].
    apply IH. destruct (search r (Some c) (pre ++ post)); [discriminate|auto].
Qed.

Lemma search_here (prev : option N) (s rest : jsstring) (caps : captures) :
  matchAt r prev s = Some (rest, caps) ->
  search r prev s = Some (Found [] (consumed s rest) caps rest).
Proof. intros H. destruct s; cbn [search]; now rewrite H. Qed.

(** [test] holds exactly when the pattern matches somewhere. *)
Lemma test_true_iff (s : jsstring) :
  test r s = true <->
  exists pre w rest caps,
    s = pre ++ w ++ rest /\ matches r (lastOr None pre) w rest [] caps.
Proof.
  unfold test, exec. split.
  - destruct (search r None s) as [f|] eqn:E; [|discriminate]. intros _.
    apply search_sound in E as [E M].
    now exists (fpre f), (fmatch f), (frest f), (fcaps f).
  - intros [pre [w [rest [caps [E M]]]]].
    destruct (search r None s) as [f|] eqn:F; [reflexivity|].
    subst s. apply search_none in F. now apply matchAt_complete in M.
Qed.

Lemma test_false_none (s : jsstring) :
  test r s = false -> search r None s = None.
Proof. unfold test, exec. destruct (search r None s); [discriminate|auto]. Qed.

(** Without a match, a global [replace] returns its text as it is. *)
Lemma replaceSt_no_match {St : Type} (f : St -> found -> St * jsstring)
    (st : St) (s : jsstring) :
  test r s = false -> replaceSt r f st s = (st, s).
Proof.
  intros H. unfold replaceSt, scanAll. cbn [scan].
  now rewrite (test_false_none _ H).
Qed.

Lemma replace_no_match (f : found -> jsstring) (s : jsstring) :
  test r s = false -> replace r f s = s.
Proof. intros H. unfold replace. now rewrite replaceSt_no_match. Qed.

End Search.

Section Shapes.

Lemma lastOr_Some (c : N) (w : jsstring) : lastOr (Some c) w <> None.
Proof. revert c. induction w as [|d w IH]; intros c; cbn; [discriminate|auto]. Qed.

Lemma lastOr_None (w : jsstring) : lastOr None w = None -> w = [].
Proof. destruct w as [|c w]; cbn; [auto|]. intros H. now apply lastOr_Some in H. Qed.

Lemma atLineStart_false (prev : option N) :
  atLineStart false prev = true -> prev = None.
Proof. destruct prev; cbn; [discriminate|auto]. Qed.

Lemma matches_LitL_inv (l : jsstring) :
  forall prev w rest caps caps',
    matches (LitL l) prev w rest caps caps' -> w = l /\ caps' = caps.
Proof.
  induction l as [|c l IH]; intros prev w rest caps caps' H; cbn [LitL] in H.
  - inversion H; auto.
  - inversion H as [| | |r1 r2 p w1 w2 rs c0 c1 c2 H1 H2 | | | | | | | | ]; subst.
    inversion H1; subst. apply IH in H2 as [-> ->]. auto.
Qed.

Lemma matches_LitL (l : jsstring) :
  forall prev rest caps, matches (LitL l) prev l rest caps caps.
Proof.
  induction l as [|c l IH]; intros prev rest caps; cbn [LitL].
  - constructor.
  - change (c :: l) with ([c] ++ l). econstructor; [constructor | apply IH].
Qed.

Lemma matches_seq_lit (l : jsstring) (r : regex) prev w rest caps caps' :
  matches r (lastOr prev l) w rest caps caps' ->
  matches (Seq (LitL l) r) prev (l ++ w) rest caps caps'.
Proof. intros H. econstructor; [apply matches_LitL | exact H]. Qed.

Lemma matches_seq_star (p : N -> bool) (r : regex) prev a w rest caps caps' :
  forallb p a = true ->
  matches r (lastOr prev a) w rest caps caps' ->
  matches (Seq (Star p) r) prev (a ++ w) rest caps caps'.
Proof. intros Ha H. econstructor; [now constructor | exact H]. Qed.

Lemma matches_seq_lazy (p : N -> bool) (r : regex) prev a w rest caps caps' :
  forallb p a = true ->
  matches r (lastOr prev a) w rest caps caps' ->
  matches (Seq (Lazy p) r) prev (a ++ w) rest caps caps'.
Proof. intros Ha H. econstructor; [now constructor | exact H]. Qed.

Lemma matches_seq_bol (ml : bool) (r : regex) prev w rest caps caps' :
  atLineStart ml prev = true ->
  matches r prev w rest caps caps' ->
  matches (Seq (Bol ml) r) prev w rest caps caps'.
Proof.
  intros Hb H. change w with ([] ++ w).
  econstructor; [now constructor | exact H].
Qed.

End Shapes.

(** Inversion of a hypothesis that a composed pattern matches, down to its
    literals and quantified classes. *)
Ltac invert_matches :=
  repeat match goal with
    | H : matches (Seq _ _) _ _ _ _ _ |- _ => inversion H; clear H; subst
    | H : matches (LitL _) _ _ _ _ _ |- _ =>
        apply matches_LitL_inv in H as [? ?]; subst
    | H : matches (Lit _) _ _ _ _ _ |- _ =>
        apply matches_LitL_inv in H as [? ?]; subst
    | H : matches (Star _) _ _ _ _ _ |- _ => inversion H; clear H; subst
    | H : matches (Lazy _) _ _ _ _ _ |- _ => inversion H; clear H; subst
    | H : matches (Grp _ _) _ _ _ _ _ |- _ => inversion H; clear H; subst
    | H : matches (Bol _) _ _ _ _ _ |- _ => inversion H; clear H; subst
    | H : matches Eol _ _ _ _ _ |- _ => inversion H; clear H; subst
    | H : matches (Cls _) _ _ _ _ _ |- _ => inversion H; clear H; subst
    | H : matches (Chr _) _ _ _ _ _ |- _ => inversion H; clear H; subst
    | H : matches Eps _ _ _ _ _ |- _ => inversion H; clear H; subst
    end.

(* ================================================================== *)
(** ** Interpolation *)

Section Interpolation.

(** What [isInterpolation] accepts, read off its pattern. *)
Lemma isInterpolation_shape (s : jsstring) :
  isInterpolation s = true <->
  exists a b c d e,
    s = a ++ js "{{" ++ b ++ c ++ d ++ js "}}" ++ e
    /\ allSpace a = true /\ allSpace b = true /\ noLineTerminator c = true
    /\ allSpace d = true /\ allSpace e = true.
Proof.
  unfold isInterpolation. rewrite test_true_iff. split.
  - intros [pre [w [rest [caps [E M]]]]].
    unfold interpolationRe in M. cbn [Seqs] in M. invert_matches.
    match goal with H : atLineStart false _ = true |- _ =>
      apply atLineStart_false, lastOr_None in H; subst pre end.
    cbn [app].
    match goal with
    | Ha : forallb isSpace ?a = true, Hb : forallb isSpace ?b = true,
      Hc : forallb isDot ?c = true, Hd : forallb isSpace ?d = true,
      He : forallb isSpace ?e = true
      |- context [?a ++ js "{{" ++ ?b ++ ?c ++ ?d ++ js "}}" ++ ?e ++ []] =>
        exists a, b, c, d, e
    end.
    rewrite !app_nil_r. repeat split; assumption.
  - intros [a [b [c [d [e [E [Ha [Hb [Hc [Hd He]]]]]]]]]].
    exists [], s, [], []. split; [now rewrite app_nil_r|].
    subst s. unfold interpolationRe. cbn [Seqs lastOr].
    apply matches_seq_bol; [reflexivity|].
    apply matches_seq_star; [exact Ha|].
    apply matches_seq_lit. apply matches_seq_star; [exact Hb|].
    apply matches_seq_lazy; [exact Hc|].
    apply matches_seq_star; [exact Hd|].
    apply matches_seq_lit. rewrite <- (app_nil_r e).
    apply matches_seq_star; [exact He|]. constructor.
Qed.

End Interpolation.

Lemma trim_braces (m : jsstring) :
  trim (js "{{" ++ m ++ js "}}") = js "{{" ++ m ++ js "}}".
Proof.
  assert (E : js "{{" ++ m ++ js "}}" = 123%N :: (123%N :: m ++ [125%N]) ++ [125%N]).
  { cbn. now rewrite <- app_assoc. }
  rewrite E. now apply trim_fixed.
Qed.

Lemma forallb_trim (p : N -> bool) (s : jsstring) :
  forallb p s = true -> forallb p (trim s) = true.
Proof.
  destruct (trim_split s) as [w1 [w2 [E _]]]. rewrite E at 1.
  rewrite !forallb_app. intros H.
  apply andb_prop in H as [_ H]. now apply andb_prop in H as [H _].
Qed.

Lemma trim_between (a s b : jsstring) :
  allSpace a = true -> allSpace b = true -> trim (a ++ s ++ b) = trim s.
Proof.
  intros Ha Hb. rewrite trim_spaces_l by exact Ha. now apply trim_spaces_r.
Qed.

(** C8, as the code has it: [isInterpolation] accepts a text exactly when
    the trimmed text starts with the opening delimiter and ends with a
    closing delimiter that does not overlap it, and what lies between the
    two, once trimmed, has no line terminator.  Text before the first
    opening or after the last closing delimiter is refused; further
    delimiters and text between the two are accepted. *)
Theorem isInterpolation_iff (s : jsstring) :
  isInterpolation s = true <->
  exists m, trim s = js "{{" ++ m ++ js "}}"
            /\ noLineTerminator (trim m) = true.
Proof.
  rewrite isInterpolation_shape. split.
  - intros [a [b [c [d [e [E [Ha [Hb [Hc [Hd He]]]]]]]]]].
    exists (b ++ c ++ d). split.
    + subst s.
      replace (a ++ js "{{" ++ b ++ c ++ d ++ js "}}" ++ e)
        with (a ++ (js "{{" ++ (b ++ c ++ d) ++ js "}}") ++ e)
        by (now rewrite <- !app_assoc).
      rewrite trim_between by assumption. apply trim_braces.
    + rewrite trim_between by assumption. now apply forallb_trim.
  - intros [m [E Hm]].
    destruct (trim_split s) as [a [e [Es [Ha He]]]].
    destruct (trim_split m) as [b [d [Em [Hb Hd]]]].
    exists a, b, (trim m), d, e. repeat split; try assumption.
    rewrite Es, E. rewrite Em at 1. now rewrite <- !app_assoc.
Qed.

(** The expression of an accepted text that is delimited at both ends. *)
Lemma isInterpolation_delimited (m : jsstring) :
  isInterpolation (js "{{" ++ m ++ js "}}") = true <->
  noLineTerminator (trim m) = true.
Proof.
  rewrite isInterpolation_shape. split.
  - intros [a [b [c [d [e [E [Ha [Hb [Hc [Hd He]]]]]]]]]].
    assert (T : trim (js "{{" ++ m ++ js "}}")
                = js "{{" ++ (b ++ c ++ d) ++ js "}}").
    { rewrite E.
      replace (a ++ js "{{" ++ b ++ c ++ d ++ js "}}" ++ e)
        with (a ++ (js "{{" ++ (b ++ c ++ d) ++ js "}}") ++ e)
        by (now rewrite <- !app_assoc).
      rewrite trim_between by assumption. apply trim_braces. }
    rewrite trim_braces in T. apply app_inv_head in T.
    apply app_inv_tail in T. subst m.
    rewrite trim_between by assumption. now apply forallb_trim.
  - intros Hm. destruct (trim_split m) as [b [d [Em [Hb Hd]]]].
    exists [], b, (trim m), d, []. repeat split; try assumption.
    cbn [app]. rewrite Em at 1. rewrite <- !app_assoc.
    now rewrite app_nil_r.
Qed.

(** The claim of C8 that a text with two interpolations, or with text
    between them, is refused fails: the lazy dot of the pattern runs over
    the first closing delimiter. *)
Lemma isInterpolation_two_spans_counterexample :
  isInterpolation (js "{{a}} x {{b}}") = true.
Proof. reflexivity. Qed.

Section Spans.

(** The first closing delimiter of a text whose part before has no closing
    brace. *)
Lemma first_closing (y : jsstring) :
  ~ In closeBrace y ->
  forall x r, x ++ js "}}" ++ r = y ++ js "}}" -> x = y /\ r = [].
Proof.
  induction y as [|d y IH]; intros Hy x r E.
  - destruct x as [|c x].
    + cbn in E. injection E as E. now subst r.
    + apply (f_equal (@length N)) in E. cbn in E.
      rewrite length_app in E. cbn in E. lia.
  - destruct x as [|c x].
    + cbn in E. injection E as E _. subst d. contradiction Hy. now left.
    + cbn in E. injection E as -> E.
      apply IH in E as [-> ->]; [auto|]. intros H. apply Hy. now right.
Qed.

(** The first closing delimiter of a text is not behind a given one. *)
Lemma firstClosing_bound (x r : jsstring) :
  exists n, firstClosing (x ++ js "}}" ++ r) = Some n /\ n <= length x.
Proof.
  change (js "}}") with [closeBrace; closeBrace].
  induction x as [|c x IH].
  - exists 0. split; [reflexivity | apply le_n].
  - destruct IH as [n [IH Hn]]. cbn [app firstClosing length] in IH |- *.
    destruct (x ++ closeBrace :: closeBrace :: r) as [|d t] eqn:E;
      [now destruct x|].
    destruct (N.eqb c closeBrace && N.eqb d closeBrace).
    + exists 0. split; [reflexivity | lia].
    + exists (S n). rewrite IH. split; [reflexivity | lia].
Qed.

(** When the first closing delimiter of a span is the one at its end, a
    closing delimiter found in it is that one. *)
Lemma closing_at_end (y : jsstring) :
  firstClosing (y ++ js "}}") = Some (length y) ->
  forall x r, x ++ js "}}" ++ r = y ++ js "}}" -> x = y /\ r = [].
Proof.
  intros Hy x r E.
  destruct (firstClosing_bound x r) as [n [F Hn]].
  rewrite E, Hy in F. injection F as F. subst n.
  pose proof (f_equal (@length N) E) as L.
  rewrite !length_app in L. cbn [length] in L.
  destruct r as [|c r]; [|cbn [length] in L; lia].
  split; [|reflexivity]. now apply app_inv_tail in E.
Qed.

(** An expression without a closing brace: the delimiter at the end is the
    first one. *)
Lemma firstClosing_no_brace (y : jsstring) :
  ~ In closeBrace y -> firstClosing (y ++ js "}}") = Some (length y).
Proof.
  change (js "}}") with [closeBrace; closeBrace].
  induction y as [|c y IH]; intros Hy; [reflexivity|].
  assert (IH' : firstClosing (y ++ [closeBrace; closeBrace])
                = Some (length y)).
  { apply IH. intros H. apply Hy. now right. }
  cbn [app firstClosing length].
  destruct (y ++ [closeBrace; closeBrace]) as [|d t] eqn:E;
    [now destruct y|].
  destruct (N.eqb_spec c closeBrace) as [->|_];
    [contradiction Hy; now left|].
  cbn [andb]. now rewrite IH'.
Qed.

(** What the pattern of [formatInterpolation] matches, and its capture. *)
Lemma interpolationSpanRe_matches prev w rest caps caps' :
  matches interpolationSpanRe prev w rest caps caps' <->
  exists a c b,
    w = js "{{" ++ a ++ c ++ b ++ js "}}"
    /\ allSpace a = true /\ noLineTerminator c = true /\ allSpace b = true
    /\ caps' = (1, c) :: caps.
Proof.
  unfold interpolationSpanRe. cbn [Seqs]. split.
  - intros M. invert_matches.
    do 3 eexists. split; [reflexivity|]. repeat split; assumption.
  - intros [a [c [b [-> [Ha [Hc [Hb ->]]]]]]].
    apply matches_seq_lit. apply matches_seq_star; [exact Ha|].
    econstructor; [constructor; now constructor|].
    apply matches_seq_star; [exact Hb|].
    rewrite <- (app_nil_r (js "}}")). apply matches_LitL.
Qed.

(** A global scan that finds one match, with nothing after it. *)
Lemma scanAll_single (r : regex) (s : jsstring) (f : found) :
  search r None s = Some f ->
  fmatch f <> [] -> frest f = [] ->
  (forall prev, matchAt r prev [] = None) ->
  scanAll r s = ([f], []).
Proof.
  intros Hs Hm Hr Hn. unfold scanAll. cbn [scan]. rewrite Hs.
  destruct (fmatch f) as [|c m] eqn:E; [contradiction|].
  rewrite Hr. destruct s as [|c0 s].
  - apply search_sound in Hs as [Hs _]. rewrite E in Hs.
    destruct (fpre f); discriminate.
  - cbn [length scan search]. now rewrite Hn.
Qed.

Lemma search_span (inner : jsstring) :
  firstClosing (inner ++ js "}}") = Some (length inner) ->
  noLineTerminator (trim inner) = true ->
  exists a c b,
    inner = a ++ c ++ b /\ allSpace a = true /\ allSpace b = true
    /\ search interpolationSpanRe None (js "{{" ++ inner ++ js "}}")
       = Some (Found [] (js "{{" ++ inner ++ js "}}") [(1, c)] []).
Proof.
  intros Hin Hlt. set (text := js "{{" ++ inner ++ js "}}").
  destruct (matchAt interpolationSpanRe None text) as [[rest caps]|] eqn:E.
  - pose proof (search_here _ _ _ _ _ E) as S.
    apply matchAt_sound in E as [w [E M]].
    apply interpolationSpanRe_matches in M
      as [a [c [b [-> [Ha [Hc [Hb ->]]]]]]].
    assert (F : (a ++ c ++ b) ++ js "}}" ++ rest = inner ++ js "}}").
    { unfold text in E. rewrite <- !app_assoc in E.
      apply app_inv_head in E. rewrite <- !app_assoc. now symmetry. }
    apply closing_at_end in F as [F ->]; [|exact Hin].
    exists a, c, b. repeat split; try assumption; [now symmetry|].
    rewrite S. unfold consumed. cbn [length]. rewrite Nat.sub_0_r, firstn_all.
    reflexivity.
  - exfalso. destruct (trim_split inner) as [a [b [Ei [Ha Hb]]]].
    assert (M : matches interpolationSpanRe None text [] []
                  [(1, trim inner)]).
    { apply interpolationSpanRe_matches. exists a, (trim inner), b.
      repeat split; try assumption. unfold text. rewrite Ei at 1.
      now rewrite <- !app_assoc. }
    apply matchAt_complete in M. rewrite app_nil_r in M. contradiction.
Qed.

End Spans.

(** The expression of an accepted span, once trimmed, has no line
    terminator. *)
Lemma isInterpolation_single_span (inner : jsstring) :
  isInterpolation (js "{{" ++ inner ++ js "}}") = true ->
  noLineTerminator (trim inner) = true.
Proof. apply isInterpolation_delimited. Qed.

(** C7, as the code has it: for a pure-interpolation fragment that is one
    span, the opening delimiter, an expression and the closing delimiter,
    where the first closing delimiter of the fragment is the one at its
    end (single closing braces in the expression are allowed), the
    interpolation formatter returns the indent, the opening delimiter and
    a space, the trimmed expression, a space and the closing delimiter:
    one space of padding inside each delimiter, whatever the spacing of
    the input.  White space inside the expression is kept as it is. *)
Theorem formatInterpolation_single_span (inner indent : jsstring) :
  firstClosing (inner ++ js "}}") = Some (length inner) ->
  isInterpolation (js "{{" ++ inner ++ js "}}") = true ->
  formatInterpolation (js "{{" ++ inner ++ js "}}") indent
  = indent ++ js "{{ " ++ trim inner ++ js " }}".
Proof.
  intros Hin Hp. apply isInterpolation_single_span in Hp.
  destruct (search_span inner Hin Hp) as [a [c [b [E [Ha [Hb S]]]]]].
  unfold formatInterpolation, replace, replaceSt.
  rewrite (scanAll_single _ _ _ S); cbn [fmatch frest];
    [|discriminate|reflexivity|reflexivity].
  cbn [replaceFold fpre fcaps getCap Nat.eqb tpl snd app].
  rewrite app_nil_r. rewrite E, trim_between by assumption. reflexivity.
Qed.

(** The claim of C7 that runs of white space inside the expression are
    collapsed fails: the formatter trims the expression and no more. *)
Lemma formatInterpolation_inner_spaces_counterexample :
  isInterpolation (js "{{a   b}}") = true
  /\ formatInterpolation (js "{{a   b}}") [] = js "{{ a   b }}".
Proof. split; reflexivity. Qed.

Lemma formatInterpolation_single_span_witness :
  formatInterpolation (js "{{   {a:1}.a  }}") (js "  ")
  = js "  {{ {a:1}.a }}".
Proof.
  exact (formatInterpolation_single_span (js "   {a:1}.a  ") (js "  ")
           eq_refl eq_refl).
Defined.

(* ================================================================== *)
(** ** The text segmenter *)

Section Segmenter.

Lemma matches_frame (r : regex) prev w rest caps caps' :
  matches r prev w rest caps caps' ->
  contextFree r = true ->
  forall prev2 rest2, matches r prev2 w rest2 caps caps'.
Proof.
  induction 1; cbn [contextFree]; intros Hc prev2 rest2;
    try discriminate; try (apply andb_prop in Hc as [Hc1 Hc2]);
    try (now constructor).
  - econstructor; [apply IHmatches1 | apply IHmatches2]; assumption.
  - apply M_AltL. now apply IHmatches.
  - apply M_AltR. now apply IHmatches.
  - constructor. now apply IHmatches.
Qed.

(** A context-free pattern that matches nowhere in a text matches nowhere
    in a part of it. *)
Lemma test_substring (r : regex) (a m b : jsstring) :
  contextFree r = true ->
  test r (a ++ m ++ b) = false -> test r m = false.
Proof.
  intros Hc H. destruct (test r m) eqn:E; [|reflexivity].
  apply test_true_iff in E as [pre [w [rest [caps [E M]]]]].
  assert (T : test r (a ++ m ++ b) = true); [|congruence].
  apply test_true_iff. exists (a ++ pre), w, (rest ++ b), caps. split.
  - subst m. now rewrite <- !app_assoc.
  - now apply (matches_frame _ _ _ _ _ _ M Hc).
Qed.

Lemma splitLoop_no_match (r : regex) (groups : list nat) :
  forall (fuel : nat) (s cur : jsstring) (prev : option N),
    length s < fuel ->
    (forall pre post, s = pre ++ post ->
                      matchAt r (lastOr prev pre) post = None) ->
    splitLoop fuel r groups prev cur s = [Some (cur ++ s)].
Proof.
  induction fuel as [|fuel IH]; intros s cur prev Hf Hn; [lia|].
  destruct s as [|c s]; cbn [splitLoop].
  - now rewrite app_nil_r.
  - pose proof (Hn [] (c :: s) eq_refl) as H0. cbn [lastOr] in H0.
    rewrite H0. rewrite IH.
    + now rewrite <- app_assoc.
    + cbn [length] in Hf. lia.
    + intros pre post E. apply (Hn (c :: pre) post). now rewrite E.
Qed.

Lemma split_no_match (r : regex) (groups : list nat) (s : jsstring) :
  s <> [] ->
  (forall pre post, s = pre ++ post -> matchAt r (lastOr None pre) post = None) ->
  split r groups s = [Some s].
Proof.
  intros Hs Hn. destruct s as [|c s]; [contradiction|]. unfold split.
  now rewrite splitLoop_no_match; [|lia|].
Qed.

(** The separator of [splitTextNode] matches nowhere in a text that has
    neither a closing brace nor a directive marker. *)
Lemma splitRe_no_match (v pre post : jsstring) (prev : option N) :
  ~ In closeBrace v ->
  test directiveMarkerRe v = false ->
  v = pre ++ post ->
  matchAt splitRe prev post = None.
Proof.
  intros Hc Hd E.
  destruct (matchAt splitRe prev post) as [[rest caps]|] eqn:M; [|reflexivity].
  exfalso. apply matchAt_sound in M as [w [Ew M]]. unfold splitRe in M.
  inversion M as [| | | | | | | |n r p w0 rs c0 c1 M1| | | ]; subst.
  inversion M1 as [| | | |r1 r2 p w0 rs c0 c2 M2|r1 r2 p w0 rs c0 c2 M2
                   | | | | | | ]; subst.
  - apply matches_LitL_inv in M2 as [-> _]. apply Hc.
    rewrite in_app_iff. right. now left.
  - assert (T : test directiveMarkerRe (pre ++ w ++ rest) = true); [|congruence].
    apply test_true_iff. exists pre, w, rest, c1. split; [reflexivity|].
    now apply (matches_frame _ _ _ _ _ _ M2).
Qed.

End Segmenter.

(** C6, as the code has it, for a value that is not empty: when the value
    has no interpolation, no closing brace, no directive marker and no
    placeholder token, the segmenter returns the trimmed value as its one
    fragment if the value is not blank, and no fragment if it is blank. *)
Theorem splitTextNode_plain_text
    (type v : jsstring) (name : option jsstring) (attrs : option (list attr))
    (children : option (list node)) :
  v <> [] ->
  test protectRe v = false ->
  ~ In closeBrace v ->
  test directiveMarkerRe v = false ->
  test placeholderRe v = false ->
  splitTextNode (Node type (Some v) name attrs children)
  = if allSpace v then [] else [textNode (trim v)].
Proof.
  intros Hv Hi Hc Hd Hp.
  assert (S : splitText v = if allSpace v then [] else [trim v]).
  { unfold splitText. rewrite replaceSt_no_match by exact Hi.
    rewrite split_no_match; [|exact Hv|].
    - destruct v as [|c s]; [contradiction|].
      cbn [filterBoolean map filter]. rewrite trim_truthy.
      destruct (allSpace (c :: s)); cbn [negb map]; [reflexivity|].
      unfold restore. rewrite replace_no_match; [reflexivity|].
      destruct (trim_split (c :: s)) as [a [b [E _]]].
      apply (test_substring placeholderRe a _ b); [reflexivity|].
      now rewrite <- E.
    - intros pre post E. now apply (splitRe_no_match v pre post). }
  destruct v as [|c s]; [contradiction|].
  cbn [splitTextNode nvalue]. rewrite S.
  now destruct (allSpace (c :: s)).
Qed.

(** The claim of C6 fails for a blank value, which gives no fragment, for a
    value that holds a placeholder token, whose fragment is not the trimmed
    value, and for an absent or empty value, which gives the node itself. *)
Lemma splitTextNode_counterexample :
  splitTextNode (textNode (js " ")) = []
  /\ splitTextNode (textNode (js "__INTERPOLATION0__"))
     = [textNode (js "undefined")]
  /\ splitTextNode (Node (js "text") None None None None)
     = [Node (js "text") None None None None]
  /\ splitTextNode (textNode []) = [textNode []].
Proof. repeat split; vm_compute; reflexivity. Qed.

Lemma splitTextNode_plain_text_witness :
  splitTextNode (textNode (js "  Hello  world "))
  = [textNode (js "Hello  world")].
Proof.
  refine (splitTextNode_plain_text (js "text") (js "  Hello  world ") None None
            None _ eq_refl _ eq_refl eq_refl).
  - discriminate.
  - cbv. intuition discriminate.
Defined.

(* ================================================================== *)
(** ** The measures of the scanning loops *)

Section Fuel.

Variable r : regex.

(** The loops of [replace] and [split] go on a strictly shorter text at
    each turn: the bound given to them is never reached, and any larger
    bound gives the same result. *)
Lemma scan_fuel :
  forall (n m : nat) (s : jsstring) (prev : option N),
    length s < n -> length s < m -> scan n r prev s = scan m r prev s.
Proof.
  induction n as [|n IH]; intros m s prev Hn Hm; [lia|].
  destruct m as [|m]; [lia|]. cbn [scan].
  destruct (search r prev s) as [f|] eqn:S; [|reflexivity].
  apply search_sound in S as [E _].
  apply (f_equal (@length N)) in E. rewrite !length_app in E.
  destruct (fmatch f) as [|c w].
  - destruct (frest f) as [|d rest]; [reflexivity|]. cbn [length] in E.
    rewrite (IH m rest (Some d)) by lia. reflexivity.
  - cbn [length] in E. rewrite (IH m (frest f)) by lia. reflexivity.
Qed.

Lemma splitLoop_fuel (groups : list nat) :
  forall (n m : nat) (s cur : jsstring) (prev : option N),
    length s < n -> length s < m ->
    splitLoop n r groups prev cur s = splitLoop m r groups prev cur s.
Proof.
  induction n as [|n IH]; intros m s cur prev Hn Hm; [lia|].
  destruct m as [|m]; [lia|]. cbn [splitLoop].
  destruct s as [|c s]; [reflexivity|]. cbn [length] in Hn, Hm.
  destruct (matchAt r prev (c :: s)) as [[rest caps]|] eqn:M.
  - apply matchAt_sound in M as [w [E _]]. rewrite E, consumed_app.
    apply (f_equal (@length N)) in E. rewrite length_app in E.
    cbn [length] in E.
    destruct w as [|d w].
    + destruct cur; rewrite (IH m s) by lia; reflexivity.
    + cbn [length] in E. rewrite (IH m rest) by lia. reflexivity.
  - apply IH; lia.
Qed.

End Fuel.

(** The call of [formatElement] on the literal of a fragment. *)
Lemma formatElement_textNode (value indent : jsstring) :
  formatElement (textNode value) indent = formatFragment value indent.
Proof. destruct value; reflexivity. Qed.

(* ================================================================== *)
(** ** The segmenter on one interpolation *)

Section SegmentedSpan.

Lemma isAny_all (s : jsstring) : forallb isAny s = true.
Proof.
  induction s as [|c s IH]; [reflexivity|]. cbn [forallb]. rewrite IH.
  unfold isAny. now rewrite orb_negb_r.
Qed.

Lemma protectRe_braced prev w rest caps caps' :
  matches protectRe prev w rest caps caps' ->
  exists m, w = js "{{" ++ m ++ js "}}".
Proof.
  unfold protectRe. cbn [Seqs]. intros M. invert_matches.
  match goal with
  | |- exists m, js "{{" ++ ?a ++ ?c ++ ?b ++ js "}}" = _ =>
      exists (a ++ c ++ b)
  end.
  now rewrite <- !app_assoc.
Qed.

Lemma protectRe_whole (m : jsstring) prev rest caps :
  matches protectRe prev (js "{{" ++ m ++ js "}}") rest caps caps.
Proof.
  unfold protectRe. cbn [Seqs]. apply matches_seq_lit.
  change (m ++ js "}}") with ([] ++ m ++ [] ++ js "}}").
  apply matches_seq_star; [reflexivity|].
  apply matches_seq_lazy; [apply isAny_all|].
  apply matches_seq_star; [reflexivity|].
  rewrite <- (app_nil_r (js "}}")). apply matches_LitL.
Qed.

Lemma innerSpanRe_braced prev w rest caps caps' :
  matches innerSpanRe prev w rest caps caps' ->
  exists m, w = js "{{" ++ m ++ js "}}".
Proof.
  unfold innerSpanRe. cbn [Seqs]. intros M. invert_matches.
  eexists. reflexivity.
Qed.

Lemma innerSpanRe_whole (m : jsstring) prev rest caps :
  matches innerSpanRe prev (js "{{" ++ m ++ js "}}") rest caps caps.
Proof.
  unfold innerSpanRe. cbn [Seqs]. apply matches_seq_lit.
  apply matches_seq_lazy; [apply isAny_all|].
  rewrite <- (app_nil_r (js "}}")). apply matches_LitL.
Qed.

(** A pattern that matches texts between the two delimiters matches, in
    one span whose expression has no closing brace, the whole span. *)
Lemma search_braced (r : regex) (inner : jsstring) (caps0 : captures) :
  (forall prev w rest caps caps',
      matches r prev w rest caps caps' -> exists m, w = js "{{" ++ m ++ js "}}") ->
  matches r None (js "{{" ++ inner ++ js "}}") [] [] caps0 ->
  ~ In closeBrace inner ->
  exists caps,
    search r None (js "{{" ++ inner ++ js "}}")
    = Some (Found [] (js "{{" ++ inner ++ js "}}") caps []).
Proof.
  intros Hshape M0 Hin. set (text := js "{{" ++ inner ++ js "}}").
  destruct (matchAt r None text) as [[rest caps]|] eqn:E.
  - pose proof (search_here _ _ _ _ _ E) as S.
    apply matchAt_sound in E as [w [E M]].
    destruct (Hshape _ _ _ _ _ M) as [m ->].
    assert (F : m ++ js "}}" ++ rest = inner ++ js "}}").
    { unfold text in E. rewrite <- !app_assoc in E.
      apply app_inv_head in E. now symmetry. }
    apply first_closing in F as [F ->]; [|exact Hin].
    exists caps. rewrite S. unfold consumed. cbn [length].
    now rewrite Nat.sub_0_r, firstn_all.
  - exfalso. apply matchAt_complete in M0. rewrite app_nil_r in M0.
    contradiction.
Qed.

Lemma sliceEnds_braces (inner : jsstring) :
  sliceEnds 2 2 (js "{{" ++ inner ++ js "}}") = inner.
Proof.
  unfold sliceEnds. rewrite app_assoc, length_app.
  replace (length (js "{{" ++ inner) + length (js "}}") - 2)
    with (length (js "{{" ++ inner)) by (cbn; lia).
  rewrite firstn_app, Nat.sub_diag, firstn_all. cbn [firstn].
  rewrite app_nil_r. reflexivity.
Qed.

Lemma restore_first (x : jsstring) :
  restore [x] (js "__INTERPOLATION0__") = x.
Proof.
  unfold restore, replace, replaceSt.
  assert (E : scanAll placeholderRe (js "__INTERPOLATION0__")
              = ([Found [] (js "__INTERPOLATION0__") [(1, js "0")] []], []))
    by (vm_compute; reflexivity).
  rewrite E. cbn. apply app_nil_r.
Qed.

(** The segmenter turns a text that is one interpolation into one fragment:
    the span with its expression collapsed, trimmed and padded with one
    space on each side. *)
Lemma splitText_single_span (inner : jsstring) :
  ~ In closeBrace inner ->
  splitText (js "{{" ++ inner ++ js "}}")
  = [js "{{ " ++ trim (replace (Plus isSpaceNR) (fun _ => [SP]) inner)
       ++ js " }}"].
Proof.
  intros Hin. set (text := js "{{" ++ inner ++ js "}}").
  destruct (search_braced protectRe inner [] protectRe_braced
              (protectRe_whole _ _ _ _) Hin) as [c1 S1].
  destruct (search_braced innerSpanRe inner [] innerSpanRe_braced
              (innerSpanRe_whole _ _ _ _) Hin) as [c2 S2].
  fold text in S1, S2.
  unfold splitText, replaceSt.
  rewrite (scanAll_single _ _ _ S1); cbn [fmatch frest];
    [|subst text; discriminate|reflexivity|reflexivity].
  cbn [replaceFold protectSpan fmatch fpre].
  unfold replace at 1. unfold replaceSt.
  rewrite (scanAll_single _ _ _ S2); cbn [fmatch frest];
    [|subst text; discriminate|reflexivity|reflexivity].
  cbn [replaceFold fpre fmatch snd app length Nat.sub].
  unfold normalizeSpan, text. rewrite sliceEnds_braces, !app_nil_r.
  set (fm := js "{{ " ++ _ ++ js " }}").
  change (split splitRe [1] (js "__INTERPOLATION" ++ numberToString 0 ++ js "__"))
    with [Some (js "__INTERPOLATION0__")].
  cbn [filterBoolean]. clearbody fm.
  change (map (restore [fm]) [js "__INTERPOLATION0__"] = [fm]).
  cbn [map]. now rewrite restore_first.
Qed.

End SegmentedSpan.

(* ================================================================== *)
(** ** Collapsing white space *)

Section Collapse.

Variable p : N -> bool.

Lemma starGreedy_done (caps : captures) :
  forall (s : jsstring) (prev : option N),
    starGreedy p done caps prev s = Some (dropRun p s, caps).
Proof.
  induction s as [|c s IH]; intros prev; cbn; [reflexivity|].
  destruct (p c); [now rewrite IH | reflexivity].
Qed.

Lemma matchAt_plus (prev : option N) (s : jsstring) :
  matchAt (Plus p) prev s
  = match s with
    | c :: s' => if p c then Some (dropRun p s', []) else None
    | [] => None
    end.
Proof.
  unfold matchAt, Plus. cbn [rx]. destruct s as [|c s]; [reflexivity|].
  destruct (p c); [apply starGreedy_done | reflexivity].
Qed.

Lemma dropRun_length (s : jsstring) : length (dropRun p s) <= length s.
Proof.
  induction s as [|c s IH]; cbn; [lia|]. destruct (p c); cbn; lia.
Qed.

Lemma collapseRun_dropRun (s : jsstring) :
  collapseRun p true s = collapseRun p false (dropRun p s).
Proof.
  induction s as [|c s IH]; cbn; [reflexivity|].
  destruct (p c) eqn:E; [exact IH|]. cbn. now rewrite E.
Qed.

(** Where the matcher fails at the first position, a global scan is the
    scan of the rest with the first code unit put before it. *)
Lemma scan_skip (r : regex) (n : nat) (prev : option N) (c : N)
    (s : jsstring) :
  matchAt r prev (c :: s) = None ->
  scan n r prev (c :: s)
  = let (fs, tl) := scan n r (Some c) s in
    match fs with
    | [] => ([], c :: tl)
    | g :: fs' =>
        (Found (c :: fpre g) (fmatch g) (fcaps g) (frest g) :: fs', tl)
    end.
Proof.
  intros H. destruct n as [|n]; cbn [scan search]; [reflexivity|].
  rewrite H. destruct (search r (Some c) s) as [[pre m caps rest]|];
    [|reflexivity].
  cbn [fmatch fpre frest fcaps lastOr app].
  destruct m as [|d w].
  - destruct rest as [|e rest]; [reflexivity|].
    destruct (scan n r (Some e) rest) as [[|g fs] tl]; reflexivity.
  - destruct (scan n r _ rest) as [fs tl]. reflexivity.
Qed.

Lemma replace_plus_fuel (k : nat) :
  forall (s : jsstring) (n : nat) (prev : option N),
    length s <= k -> length s < n ->
    (let (fs, tl) := scan n (Plus p) prev s in
     snd (replaceFold (fun (u : unit) (_ : found) => (u, [SP])) tt fs tl))
    = collapseRun p false s.
Proof.
  induction k as [|k IH]; intros s n prev Hk Hn.
  - destruct s; [|cbn in Hk; lia]. destruct n; [lia|]. reflexivity.
  - destruct s as [|c s].
    + destruct n; [lia|]. reflexivity.
    + cbn [length] in Hk, Hn. cbn [collapseRun].
      destruct (p c) eqn:E.
      * destruct n as [|n]; [lia|]. cbn [scan search].
        rewrite matchAt_plus, E. cbn [fmatch frest fpre app lastOr].
        pose proof (dropRun_length s) as L.
        assert (C : exists w, consumed (c :: s) (dropRun p s) = c :: w).
        { unfold consumed. cbn [length].
          destruct (S (length s) - length (dropRun p s)) eqn:D; [lia|].
          cbn [firstn]. eauto. }
        destruct C as [w ->].
        specialize (IH (dropRun p s) n (lastOr prev (c :: w))
                      ltac:(lia) ltac:(lia)).
        destruct (scan n (Plus p) _ (dropRun p s)) as [fs tl].
        cbn [replaceFold fpre app snd].
        destruct (replaceFold _ tt fs tl) as [u out]. cbn [snd] in *.
        rewrite IH. now rewrite collapseRun_dropRun.
      * rewrite scan_skip by (now rewrite matchAt_plus, E).
        specialize (IH s n (Some c) ltac:(lia) ltac:(lia)).
        destruct (scan n (Plus p) (Some c) s) as [[|g fs] tl];
          cbn [replaceFold fpre app snd] in *.
        -- now rewrite IH.
        -- destruct (replaceFold _ tt fs tl) as [u out]. cbn [snd] in *.
           now rewrite <- IH.
Qed.

(** Replacing every match of a class under [+] by one space is collapsing
    the runs of the class. *)
Lemma replace_plus (s : jsstring) :
  replace (Plus p) (fun _ => [SP]) s = collapseRun p false s.
Proof.
  unfold replace, replaceSt, scanAll.
  pose proof (replace_plus_fuel (length s) s (S (length s)) None
                (le_n _) (Nat.lt_succ_diag_r _)) as H.
  destruct (scan (S (length s)) (Plus p) None s) as [fs tl]. exact H.
Qed.

End Collapse.

Section CollapsedShape.

Lemma collapseRun_shape (s : jsstring) :
  match collapseRun isSpace true s with
  | d :: _ => isSpace d = false
  | [] => True
  end
  /\ singleSpaced (collapseRun isSpace true s)
  /\ singleSpaced (collapseRun isSpace false s).
Proof.
  induction s as [|c s [IH1 [IH2 IH3]]]; cbn [collapseRun]; [cbn; auto|].
  destruct (isSpace c) eqn:E.
  - repeat split; assumption.
  - cbn [singleSpaced]. repeat split; try assumption; congruence.
Qed.

Lemma collapseRun_fixed (t : jsstring) :
  singleSpaced t -> collapseRun isSpace false t = t.
Proof.
  induction t as [|c t IH]; [reflexivity|]. cbn [singleSpaced collapseRun].
  intros [Hc Ht]. destruct (isSpace c) eqn:E.
  - destruct (Hc eq_refl) as [-> Hd]. f_equal.
    destruct t as [|d t]; [reflexivity|].
    rewrite <- (IH Ht) at 2. cbn [collapseRun]. now rewrite Hd.
  - f_equal. auto.
Qed.

Lemma lineTerminator_space (c : N) :
  isLineTerminator c = true -> isSpace c = true.
Proof.
  unfold isLineTerminator, isSpace. intros H.
  repeat (apply orb_prop in H as [H|H]);
    apply N.eqb_eq in H; subst c; reflexivity.
Qed.

Lemma singleSpaced_noLineTerminator (t : jsstring) :
  singleSpaced t -> noLineTerminator t = true.
Proof.
  unfold noLineTerminator.
  induction t as [|c t IH]; [reflexivity|]. cbn [singleSpaced forallb].
  intros [Hc Ht]. rewrite (IH Ht), andb_true_r. unfold isDot.
  destruct (isLineTerminator c) eqn:E; [|reflexivity].
  destruct (Hc (lineTerminator_space c E)) as [-> _]. discriminate.
Qed.

End CollapsedShape.

(** X1: replacing the runs of white space by one space, as the directive
    predicates and the control-flow formatter do before they match, leaves
    a text in which white space is a single space that no white space
    follows, with no line terminator; doing it again changes nothing. *)
Theorem collapseSpaces_single_spaced (text : jsstring) :
  singleSpaced (collapseSpaces text)
  /\ noLineTerminator (collapseSpaces text) = true
  /\ collapseSpaces (collapseSpaces text) = collapseSpaces text.
Proof.
  unfold collapseSpaces. rewrite !replace_plus.
  destruct (collapseRun_shape text) as [_ [_ H]].
  repeat split; [exact H | now apply singleSpaced_noLineTerminator|].
  now apply collapseRun_fixed.
Qed.

Section Keywords.

Lemma lastOr_In (pre : jsstring) :
  forall (prev : option N) (c : N),
    lastOr prev pre = Some c -> prev = Some c \/ In c pre.
Proof.
  induction pre as [|d pre IH]; intros prev c H; cbn in H; [now left|].
  apply IH in H as [H|H]; right; [left; congruence | now right].
Qed.

Lemma matches_Alts_LitL (l : list jsstring) prev w rest caps caps' :
  l <> [] ->
  matches (Alts (map LitL l)) prev w rest caps caps' <->
  In w l /\ caps' = caps.
Proof.
  induction l as [|a l IH]; [contradiction|]. intros _.
  destruct l as [|b l].
  - cbn [map Alts]. split.
    + intros M. apply matches_LitL_inv in M as [-> ->]. split; [now left|auto].
    + intros [[->|[]] ->]. apply matches_LitL.
  - change (Alts (map LitL (a :: b :: l)))
      with (Alt (LitL a) (Alts (map LitL (b :: l)))).
    split.
    + intros M.
      inversion M as [| | | |r1 r2 p0 w0 rs c0 c1 M1|r1 r2 p0 w0 rs c0 c1 M1
                      | | | | | | ]; subst.
      * apply matches_LitL_inv in M1 as [-> ->]. split; [now left|auto].
      * apply IH in M1 as [H ->]; [|discriminate]. split; [now right|auto].
    + intros [[->|H] ->].
      * apply M_AltL, matches_LitL.
      * apply M_AltR, IH; [discriminate|auto].
Qed.

Variable kws : list jsstring.
Hypothesis kws_not_empty : kws <> [].
Hypothesis kws_end_in_word :
  forall kw, In kw kws -> forall prev, isWordOpt (lastOr prev kw) = true.

Let keywordRe : regex :=
  Seqs [Bol true; LitL (js "@"); Grp 1 (Alts (map LitL kws)); WordB].

(** In a text without line terminator the pattern of a directive predicate
    can only match at the start. *)
Lemma keywordRe_test (t : jsstring) :
  noLineTerminator t = true ->
  test keywordRe t = true <-> startsWithKeyword kws t.
Proof.
  intros Hlt. rewrite test_true_iff. unfold startsWithKeyword. split.
  - intros [pre [w [rest [caps [E M]]]]]. subst keywordRe.
    cbn [Seqs] in M. invert_matches.
    match goal with H : matches (Alts _) _ _ _ _ _ |- _ =>
      apply matches_Alts_LitL in H as [Hin ->]; [|exact kws_not_empty] end.
    match goal with H : matches WordB _ _ _ _ _ |- _ =>
      inversion H as [| | | | | | | | | | |p0 rs c0 Hw]; subst end.
    assert (pre = []) as ->.
    { destruct (lastOr None pre) as [c|] eqn:L; [|now apply lastOr_None].
      exfalso. apply lastOr_In in L as [L|L]; [discriminate|].
      match goal with H : atLineStart true _ = true |- _ =>
        cbn in H end.
      unfold noLineTerminator in Hlt. rewrite forallb_forall in Hlt.
      specialize (Hlt c). rewrite in_app_iff in Hlt.
      specialize (Hlt (or_introl L)). unfold isDot in Hlt.
      match goal with H : isLineTerminator c = true |- _ =>
        rewrite H in Hlt end. discriminate. }
    match goal with H : In ?kw kws |- _ => exists kw, rest end.
    repeat split; [exact Hin | cbn [app]; now rewrite !app_nil_r|].
    rewrite (kws_end_in_word _ Hin) in Hw.
    now destruct (isWordOpt (hd_error rest)).
  - intros [kw [rest [Hin [-> Hw]]]].
    exists [], (js "@" ++ kw), rest, [(1, kw)]. split.
    + cbn [app]. now rewrite <- app_assoc.
    + subst keywordRe. cbn [Seqs lastOr].
      apply matches_seq_bol; [reflexivity|].
      apply matches_seq_lit.
      rewrite <- (app_nil_r kw) at 1.
      econstructor.
      * constructor. apply matches_Alts_LitL; [exact kws_not_empty|auto].
      * constructor. rewrite (kws_end_in_word _ Hin), Hw. reflexivity.
Qed.

End Keywords.

Ltac keyword_cases H :=
  cbn in H;
  repeat match type of H with
         | _ \/ _ => destruct H as [H|H]
         | False => destruct H
         end.

Lemma collapsed_trimmed_noLineTerminator (text : jsstring) :
  noLineTerminator (trim (collapseSpaces text)) = true.
Proof.
  apply forallb_trim. unfold collapseSpaces. rewrite replace_plus.
  apply singleSpaced_noLineTerminator, collapseRun_shape.
Qed.

Lemma controlFlowRe_keywords (t : jsstring) :
  noLineTerminator t = true ->
  test controlFlowRe t = true <-> startsWithKeyword controlFlowKeywords t.
Proof.
  change controlFlowRe
    with (Seqs [Bol true; LitL (js "@");
                Grp 1 (Alts (map LitL controlFlowKeywords)); WordB]).
  apply keywordRe_test.
  - discriminate.
  - intros kw Hin prev. keyword_cases Hin; subst kw; reflexivity.
Qed.

Lemma ifChainRe_keywords (t : jsstring) :
  noLineTerminator t = true ->
  test ifChainRe t = true <-> startsWithKeyword ifChainKeywords t.
Proof.
  change ifChainRe
    with (Seqs [Bol true; LitL (js "@");
                Grp 1 (Alts (map LitL ifChainKeywords)); WordB]).
  apply keywordRe_test.
  - discriminate.
  - intros kw Hin prev. keyword_cases Hin; subst kw; reflexivity.
Qed.

(** X2: [isControlFlowDirective] holds exactly when the text, with its
    white space collapsed and trimmed, starts with the at sign and one of
    the nine keywords, and the keyword is not continued by a word
    character.  The multi-line flag of the pattern never plays: collapsing
    leaves no line terminator. *)
Theorem isControlFlowDirective_iff (text : jsstring) :
  isControlFlowDirective text = true <->
  startsWithKeyword controlFlowKeywords (trim (collapseSpaces text)).
Proof.
  unfold isControlFlowDirective. apply controlFlowRe_keywords.
  apply collapsed_trimmed_noLineTerminator.
Qed.

(** X3: [isIfChainDirective] holds exactly when the collapsed and trimmed
    text starts with the at sign and one of the five chain keywords, not
    continued by a word character. *)
Theorem isIfChainDirective_iff (text : jsstring) :
  isIfChainDirective text = true <->
  startsWithKeyword ifChainKeywords (trim (collapseSpaces text)).
Proof.
  unfold isIfChainDirective. apply ifChainRe_keywords.
  apply collapsed_trimmed_noLineTerminator.
Qed.

(** X4: a chained continuation is also a control-flow directive, and so
    opens a block wherever it stands, unless its keyword is one of the two
    continuations of a deferred block: these are recognised only behind a
    closer. *)
Theorem chain_directive_opens_block (text : jsstring) :
  isIfChainDirective text = true ->
  isControlFlowDirective text = false <->
  startsWithKeyword deferContinuations (trim (collapseSpaces text)).
Proof.
  pose proof (collapsed_trimmed_noLineTerminator text) as Hlt.
  unfold isIfChainDirective, isControlFlowDirective.
  intros Hc. apply (ifChainRe_keywords _ Hlt) in Hc.
  destruct Hc as [kw [rest [Hin [E Hw]]]]. split.
  - intros Hn.
    assert (Hcf : ~ startsWithKeyword controlFlowKeywords
                      (trim (collapseSpaces text))).
    { intros H. apply (controlFlowRe_keywords _ Hlt) in H. congruence. }
    keyword_cases Hin; subst kw;
      try (exfalso; apply Hcf; eexists; exists rest;
           split; [|split; [exact E | exact Hw]]; cbn; tauto);
      eexists; exists rest; (split; [|split; [exact E | exact Hw]]); cbn; tauto.
  - intros [kw' [rest' [Hin' [E' _]]]].
    destruct (test controlFlowRe _) eqn:Hcf; [|reflexivity].
    apply (controlFlowRe_keywords _ Hlt) in Hcf.
    destruct Hcf as [kw2 [rest2 [Hin2 [E2 _]]]].
    rewrite E' in E2. exfalso.
    keyword_cases Hin'; subst kw'; keyword_cases Hin2; subst kw2;
      discriminate.
Qed.

Lemma chain_directive_opens_block_witness :
  isControlFlowDirective (js "@placeholder {") = false <->
  startsWithKeyword deferContinuations
    (trim (collapseSpaces (js "@placeholder {"))).
Proof.
  exact (chain_directive_opens_block (js "@placeholder {") eq_refl).
Defined.

(* ================================================================== *)
(** ** The control-flow formatter *)

Section ControlFlow.

Lemma collapseRun_In (p : N -> bool) (c : N) (s : jsstring) :
  forall b, In c (collapseRun p b s) -> c = SP \/ In c s.
Proof.
  induction s as [|d s IH]; intros b H; cbn [collapseRun] in H; [destruct H|].
  destruct (p d).
  - destruct b.
    + apply IH in H as [H|H]; [now left | right; now right].
    + destruct H as [H|H]; [now left|].
      apply IH in H as [H|H]; [now left | right; now right].
  - destruct H as [H|H]; [right; now left|].
    apply IH in H as [H|H]; [now left | right; now right].
Qed.

Lemma trim_In (c : N) (s : jsstring) : In c (trim s) -> In c s.
Proof.
  destruct (trim_split s) as [a [b [E _]]]. intros H. rewrite E.
  rewrite !in_app_iff. tauto.
Qed.

Lemma trim_head (s : jsstring) :
  match trim s with c :: _ => isSpace c = false | [] => True end.
Proof.
  unfold trim. destruct (trimStart_split s) as [_ [_ [_ H]]].
  destruct (trimEnd_split (trimStart s)) as [w [E _]].
  destruct (trimEnd (trimStart s)) as [|c t]; [exact I|].
  rewrite E in H. exact H.
Qed.

Lemma collapseSpaces_head (c : N) (s : jsstring) :
  isSpace c = false ->
  exists t, collapseSpaces (c :: s) = c :: t.
Proof.
  intros H. unfold collapseSpaces. rewrite replace_plus. cbn [collapseRun].
  rewrite H. eauto.
Qed.

(** What the pattern of the directive matches: it starts at the start of
    the text with the at sign and holds an opening brace. *)
Lemma directiveRe_match (t : jsstring) (m : found) :
  exec directiveRe t = Some m ->
  hd_error t = Some atSign /\ In openBrace t.
Proof.
  unfold exec. intros H. apply search_sound in H as [E M].
  unfold directiveRe in M. cbn [Seqs] in M. invert_matches.
  match goal with H : atLineStart false _ = true |- _ =>
    apply atLineStart_false, lastOr_None in H; rewrite H end.
  match goal with H : _ = fmatch m |- _ => rewrite <- H end.
  cbn [app]. split.
  - reflexivity.
  - right. rewrite !in_app_iff. cbn. tauto.
Qed.

(** The indent is put before the line and plays no other part. *)
Lemma formatControlFlow_indent (value indent : jsstring) :
  formatControlFlow value indent = indent ++ formatControlFlow value [].
Proof.
  unfold formatControlFlow.
  destruct (exec directiveRe _); [|reflexivity].
  destruct (exec directivePartsRe _); [|reflexivity].
  destruct (getCap 2 _) as [c|]; [|reflexivity].
  destruct (truthy c); reflexivity.
Qed.

End ControlFlow.

(** X5: a text that cannot be a directive, because it has no opening brace
    or because, once trimmed, it does not start with the at sign, is
    printed by the control-flow formatter as it is, trimmed, behind the
    indent: runs of white space inside it are kept. *)
Theorem formatControlFlow_not_a_directive (value indent : jsstring) :
  ~ In openBrace value \/ hd_error (trim value) <> Some atSign ->
  formatControlFlow value indent = indent ++ trim value.
Proof.
  intros H. unfold formatControlFlow.
  destruct (exec directiveRe (collapseSpaces (trim value))) as [m|] eqn:E;
    [|reflexivity].
  exfalso. apply directiveRe_match in E as [Hat Hbr].
  destruct H as [H|H].
  - apply H, trim_In. unfold collapseSpaces in Hbr. rewrite replace_plus in Hbr.
    apply collapseRun_In in Hbr as [Hbr|Hbr]; [discriminate | exact Hbr].
  - apply H. pose proof (trim_head value) as Hh.
    destruct (trim value) as [|c t]; [discriminate|].
    destruct (collapseSpaces_head c t Hh) as [t' Ec]. rewrite Ec in Hat.
    exact Hat.
Qed.

Lemma formatControlFlow_not_a_directive_witness :
  formatControlFlow (js "  @if   (broken  ") (js "  ")
  = js "  @if   (broken".
Proof.
  refine (formatControlFlow_not_a_directive (js "  @if   (broken  ") (js "  ")
            (or_introl _)).
  cbv. intuition discriminate.
Defined.

(* ================================================================== *)
(** ** Elements without meaningful content *)

(** X6: an element without attributes and without meaningful content is
    printed on one line: the indent, the opening tag, and the closing tag
    unless the tag name is self-closing. *)
Theorem no_attribute_inline
    (type name indent : jsstring) (value : option jsstring)
    (attrs : option (list attr)) (children : option (list node)) :
  streq type (js "comment") = false ->
  streq type (js "text") = false ->
  name <> [] ->
  hasItems attrs = false ->
  hasContent children = false ->
  formatElement (Node type value (Some name) attrs children) indent
  = indent ++ js "<" ++ name ++ js ">"
      ++ (if isSelfClosingTag name then [] else js "</" ++ name ++ js ">").
Proof.
  intros Hc Ht Hn Ha Hcont.
  rewrite formatElement_element by assumption. cbv zeta.
  unfold openingTag. rewrite Hcont, Ha. cbn [negb andb orb].
  destruct (isSelfClosingTag name); cbn [negb];
    repeat rewrite <- app_assoc; [now rewrite app_nil_r | reflexivity].
Qed.

Lemma no_attribute_inline_witness :
  formatElement
    (Node (js "element") None (Some (js "custom-element")) (Some [])
       (Some [textNode (js "  ")])) (js "  ")
  = js "  <custom-element></custom-element>".
Proof.
  exact (no_attribute_inline (js "element") (js "custom-element") (js "  ")
           None (Some []) (Some [textNode (js "  ")])
           eq_refl eq_refl ltac:(discriminate) eq_refl eq_refl).
Defined.

(** X7: an element with two or more attributes and no meaningful content
    is printed as its opening name, one attribute per line at the indent
    plus 2 spaces, and the closing tag on a line of its own at the indent.
    Only a self-closing name without any child has no closing tag. *)
Theorem multiple_attributes_no_content
    (type name indent : jsstring) (value : option jsstring)
    (a1 a2 : attr) (more : list attr) (children : option (list node)) :
  streq type (js "comment") = false ->
  streq type (js "text") = false ->
  name <> [] ->
  hasContent children = false ->
  let attrs := a1 :: a2 :: more in
  formatElement (Node type value (Some name) (Some attrs) children) indent
  = indent ++ js "<" ++ name ++ [NL]
      ++ join [NL] (map (fun a => (indent ++ js "  ") ++ formatAttr a) attrs)
      ++ js ">"
      ++ (if negb (hasItems children) && isSelfClosingTag name then []
          else [NL] ++ indent ++ js "</" ++ name ++ js ">").
Proof.
  intros Hc Ht Hn Hcont attrs.
  rewrite formatElement_element by assumption. cbv zeta.
  unfold openingTag, attrs. rewrite Hcont.
  cbn [hasItems items length Nat.eqb andb orb negb formatAttributes tpl].
  destruct (negb (hasItems children) && isSelfClosingTag name);
    repeat rewrite <- app_assoc; [now rewrite app_nil_r | reflexivity].
Qed.

Lemma multiple_attributes_no_content_witness :
  formatElement
    (Node (js "element") None (Some (js "app-x"))
       (Some [Attr (js "[title]") (Some (js "t")); Attr (js "disabled") None])
       None) []
  = js "<app-x" ++ [NL] ++ js "  [title]=" ++ [QUOTE] ++ js "t" ++ [QUOTE]
      ++ [NL] ++ js "  disabled>" ++ [NL] ++ js "</app-x>".
Proof.
  exact (multiple_attributes_no_content (js "element") (js "app-x") [] None
           (Attr (js "[title]") (Some (js "t"))) (Attr (js "disabled") None)
           [] None eq_refl eq_refl ltac:(discriminate) eq_refl).
Defined.

(** X8: children that are no meaningful content, blank texts and texts
    without a value, leave no trace in the output of an element whose name
    is not self-closing: it is printed as if it had no children. *)
Theorem blank_children_ignored
    (type name indent : jsstring) (value : option jsstring)
    (attrs : option (list attr)) (children : option (list node)) :
  streq type (js "comment") = false ->
  streq type (js "text") = false ->
  name <> [] ->
  isSelfClosingTag name = false ->
  hasContent children = false ->
  formatElement (Node type value (Some name) attrs children) indent
  = formatElement (Node type value (Some name) attrs None) indent.
Proof.
  intros Hc Ht Hn Hs Hcont.
  rewrite !formatElement_element by assumption. cbv zeta.
  rewrite Hcont, Hs. cbn [hasContent negb andb].
  rewrite !andb_false_r.
  destruct (hasItems attrs && Nat.eqb (length (items attrs)) 1
            || negb (hasItems attrs)); reflexivity.
Qed.

Lemma blank_children_ignored_witness :
  formatElement
    (Node (js "element") None (Some (js "div"))
       (Some [Attr (js "a") None; Attr (js "b") None])
       (Some [textNode (js " "); Node (js "text") None None None None]))
    (js "  ")
  = formatElement
      (Node (js "element") None (Some (js "div"))
         (Some [Attr (js "a") None; Attr (js "b") None]) None) (js "  ").
Proof.
  exact (blank_children_ignored (js "element") (js "div") (js "  ") None
           (Some [Attr (js "a") None; Attr (js "b") None])
           (Some [textNode (js " "); Node (js "text") None None None None])
           eq_refl eq_refl ltac:(discriminate) eq_refl eq_refl).
Defined.

(* ================================================================== *)
(** ** Plain text *)

Section PlainText.

Lemma trim_head_keep (c : N) (t : jsstring) :
  isSpace c = false -> exists t', trim (c :: t) = c :: t'.
Proof.
  intros H. destruct (trim_split (c :: t)) as [a [b [E [Ha Hb]]]].
  destruct a as [|d a].
  - destruct (trim (c :: t)) as [|e t'] eqn:T.
    + cbn in E. subst b. cbn in Hb. rewrite H in Hb. discriminate.
    + cbn in E. injection E as -> _. eauto.
  - cbn in E. injection E as <- _. cbn in Ha. rewrite H in Ha. discriminate.
Qed.

(** A text whose first code unit is neither white space nor the at sign is
    no control-flow directive. *)
Lemma not_directive_by_head (c : N) (t : jsstring) :
  isSpace c = false -> c <> atSign ->
  isControlFlowDirective (c :: t) = false.
Proof.
  intros Hs Hc. unfold isControlFlowDirective.
  destruct (test controlFlowRe _) eqn:E; [|reflexivity]. exfalso.
  apply controlFlowRe_keywords in E;
    [|apply collapsed_trimmed_noLineTerminator].
  destruct E as [kw [rest [_ [E _]]]].
  destruct (collapseSpaces_head c t Hs) as [t1 E1]. rewrite E1 in E.
  destruct (trim_head_keep c t1 Hs) as [t2 E2]. rewrite E2 in E.
  cbn in E. injection E as E _. now apply Hc.
Qed.

(** A text whose first code unit is neither white space nor an opening
    brace is no interpolation. *)
Lemma not_interpolation_by_head (c : N) (t : jsstring) :
  isSpace c = false -> c <> openBrace -> isInterpolation (c :: t) = false.
Proof.
  intros Hs Hc. destruct (isInterpolation (c :: t)) eqn:E; [|reflexivity].
  exfalso. apply isInterpolation_shape in E
    as [a [b [x [d [e [E [Ha _]]]]]]].
  destruct a as [|a0 a].
  - cbn in E. injection E as E _. now apply Hc.
  - cbn in E. injection E as <- _. cbn in Ha. rewrite Hs in Ha. discriminate.
Qed.

Lemma formatText_by_head (value indent : jsstring) (c : N) (t : jsstring) :
  trim value = c :: t -> c <> atSign -> c <> openBrace ->
  formatText value indent = indent ++ trim value.
Proof.
  intros E Ha Hb. pose proof (trim_head value) as Hs. rewrite E in Hs.
  unfold formatText. rewrite E. cbn [truthy negb].
  now rewrite not_directive_by_head, not_interpolation_by_head.
Qed.

Lemma interpolationSpanRe_no_brace (text : jsstring) :
  ~ In openBrace text -> test interpolationSpanRe text = false.
Proof.
  intros H. destruct (test interpolationSpanRe text) eqn:E; [|reflexivity].
  exfalso. apply test_true_iff in E as [pre [w [rest [caps [E M]]]]].
  apply interpolationSpanRe_matches in M as [a [c [b [-> _]]]].
  apply H. rewrite E. apply in_or_app. right. now left.
Qed.

End PlainText.

(** X9: a text that, once trimmed, starts with neither the at sign nor an
    opening brace is printed as the indent and the trimmed text: what is
    inside it, white space and line breaks too, is kept as it is. *)
Theorem formatText_plain (value indent : jsstring) (c : N) (t : jsstring) :
  trim value = c :: t -> c <> atSign -> c <> openBrace ->
  formatElement (textNode value) indent = indent ++ trim value.
Proof.
  intros E Ha Hb. rewrite formatElement_textNode. unfold formatFragment.
  destruct value as [|v0 value]; [discriminate|]. cbn [truthy].
  now apply (formatText_by_head _ _ c t).
Qed.

Lemma formatText_plain_witness :
  formatElement (textNode (js "  Hello   world ")) (js "    ")
  = js "    Hello   world".
Proof.
  refine (formatText_plain (js "  Hello   world ") (js "    ") 72
            (js "ello   world") eq_refl _ _); discriminate.
Defined.

(** X10: the interpolation formatter leaves a text without opening brace
    as it is and puts the indent before it. *)
Theorem formatInterpolation_no_span (text indent : jsstring) :
  ~ In openBrace text -> formatInterpolation text indent = indent ++ text.
Proof.
  intros H. unfold formatInterpolation.
  now rewrite replace_no_match by (now apply interpolationSpanRe_no_brace).
Qed.

Lemma formatInterpolation_no_span_witness :
  formatInterpolation (js "a }} b") (js "  ") = js "  a }} b".
Proof.
  refine (formatInterpolation_no_span (js "a }} b") (js "  ") _).
  cbv. intuition discriminate.
Defined.

(* ================================================================== *)
(** ** Invariants of the two loops *)

Section LoopInvariant.

Lemma startsWith_refl (base : jsstring) : startsWith base base.
Proof. exists []. now rewrite app_nil_r. Qed.

Lemma startsWith_app (base l r : jsstring) :
  startsWith base l -> startsWith base (l ++ r).
Proof. intros [x ->]. exists (x ++ r). now rewrite app_assoc. Qed.

Lemma startsWith_trans (a b c : jsstring) :
  startsWith a b -> startsWith b c -> startsWith a c.
Proof. intros [x ->] [y ->]. exists (x ++ y). now rewrite app_assoc. Qed.

Lemma formatText_startsWith (value ind : jsstring) :
  formatText value ind = [] \/ startsWith ind (formatText value ind).
Proof.
  unfold formatText. destruct (negb (truthy (trim value))); [now left|].
  right. destruct (isControlFlowDirective _).
  - rewrite formatControlFlow_indent. now eexists.
  - destruct (isInterpolation _); now eexists.
Qed.

Lemma formatFragment_startsWith (value ind : jsstring) :
  formatFragment value ind = [] \/ startsWith ind (formatFragment value ind).
Proof.
  unfold formatFragment. destruct (truthy value);
    [apply formatText_startsWith | now left].
Qed.

Lemma openingTag_startsWith name attrs b ind :
  startsWith ind (openingTag name attrs b ind).
Proof.
  unfold openingTag. destruct (hasItems attrs).
  - destruct (true && _); repeat rewrite <- app_assoc; now eexists.
  - rewrite <- app_assoc. now eexists.
Qed.

(** What the element formatter returns is empty or starts with the indent
    it was given. *)
Lemma formatElement_startsWith (n : node) (ind : jsstring) :
  formatElement n ind = [] \/ startsWith ind (formatElement n ind).
Proof.
  destruct n as [type value name attrs children]. cbn [formatElement].
  destruct (streq type (js "comment")); [right; now eexists|].
  destruct (streq type (js "text"));
    [destruct value as [[|v0 v]|]; [| apply formatText_startsWith |]|];
    (destruct name as [[|c s]|]; [now left| |now left]);
    right; cbv zeta;
    repeat match goal with
           | |- context [if ?b then _ else _] => destruct b
           end;
    try apply openingTag_startsWith;
    try (apply startsWith_app, openingTag_startsWith);
    apply startsWith_app; destruct children as [[|c0 cs]|];
    try apply openingTag_startsWith;
    apply startsWith_app, openingTag_startsWith.
Qed.

Variable base : jsstring.

Lemma currentIndent_under (st : loopState) :
  stateUnder base st -> startsWith base (currentIndent st base).
Proof.
  intros [Hs _]. unfold currentIndent.
  destruct (stack st) as [|b bs]; [apply startsWith_refl|].
  inversion Hs as [|x l [Hb Hc]]; subst. rewrite Hc.
  now apply startsWith_app.
Qed.

Lemma pushIfNotBlank_under (l : jsstring) (st : loopState) :
  stateUnder base st ->
  l = [] \/ startsWith (currentIndent st base) l ->
  stateUnder base (pushIfNotBlank l st).
Proof.
  intros Hst Hl. unfold pushIfNotBlank.
  destruct (truthy (trim l)) eqn:E; [|exact Hst].
  destruct Hl as [->|Hl]; [discriminate|].
  destruct Hst as [Hs Hls]. split; [exact Hs|]. cbn [pushLine lines].
  apply Forall_app. split; [exact Hls|]. constructor; [|constructor].
  eapply startsWith_trans; [|exact Hl].
  now apply currentIndent_under.
Qed.

Lemma openBlock_under (value : jsstring) (st : loopState) :
  stateUnder base st -> stateUnder base (openBlock value base st).
Proof.
  intros Hst. pose proof (currentIndent_under st Hst) as Hc.
  destruct Hst as [Hs Hls]. unfold openBlock. split; cbn [stack lines].
  - constructor; [|exact Hs]. split; [exact Hc | reflexivity].
  - apply Forall_app. split; [exact Hls|]. constructor; [|constructor].
    rewrite formatControlFlow_indent. now apply startsWith_app.
Qed.

Lemma closeBlock_under (st : loopState) (blk : block) (below : list block)
    (tail : jsstring) :
  stateUnder base st -> stack st = blk :: below ->
  stateUnder base (LoopState below (lines st ++ [indent blk ++ tail])).
Proof.
  intros [Hs Hls] E. rewrite E in Hs. inversion Hs as [|x l [Hb Hc] Hbelow]; subst.
  split; cbn [stack lines]; [exact Hbelow|].
  apply Forall_app. split; [exact Hls|]. constructor; [|constructor].
  now apply startsWith_app.
Qed.

Lemma chainBlock_under (st : loopState) (blk : block) (below : list block)
    (next : jsstring) :
  stateUnder base st -> stack st = blk :: below ->
  stateUnder base (chained blk below next (lines st)).
Proof.
  intros Hst E. pose proof (closeBlock_under st blk below
    (js "} " ++ trim (formatControlFlow next [])) Hst E) as [Hs Hls].
  destruct Hst as [Hs0 _]. rewrite E in Hs0.
  inversion Hs0 as [|x l [Hb Hc] Hbelow]; subst.
  split; cbn [stack lines chained]; [|exact Hls].
  constructor; [|exact Hbelow]. split; [exact Hb | reflexivity].
Qed.

Lemma elementParts_under :
  forall (n : nat) (parts : list jsstring) (st : loopState),
    length parts <= n ->
    stateUnder base st -> stateUnder base (elementParts base parts st).
Proof.
  induction n as [|n IH]; intros parts st Hlen Hst.
  - destruct parts; [exact Hst | cbn in Hlen; lia].
  - destruct parts as [|v rest]; [exact Hst|]. cbn [length] in Hlen.
    cbn [elementParts].
    destruct (isControlFlowDirective v).
    { apply IH; [lia | now apply openBlock_under]. }
    assert (R : stateUnder base
                  (elementParts base rest
                     (pushIfNotBlank
                        (formatFragment v (currentIndent st base)) st))).
    { apply IH; [lia|]. apply pushIfNotBlank_under; [exact Hst|].
      apply formatFragment_startsWith. }
    destruct (streq v closer); [|exact R].
    destruct (stack st) as [|blk below] eqn:E; [exact R|].
    destruct rest as [|next rest'].
    + now apply (closeBlock_under st blk below (js "}")).
    + cbn [length] in Hlen. destruct (isIfChainDirective next).
      * apply IH; [lia|]. now apply (chainBlock_under st blk below next).
      * apply IH; [cbn [length]; lia|].
        now apply (closeBlock_under st blk below (js "}")).
Qed.

Lemma rootParts_under :
  forall (n : nat) (parts : list jsstring) (st : loopState),
    length parts <= n ->
    stateUnder base st -> stateUnder base (rootParts base parts st).
Proof.
  induction n as [|n IH]; intros parts st Hlen Hst.
  - destruct parts; [exact Hst | cbn in Hlen; lia].
  - destruct parts as [|v rest]; [exact Hst|]. cbn [length] in Hlen.
    cbn [rootParts].
    destruct (streq v closer).
    + destruct (stack st) as [|blk below] eqn:E; [apply IH; [lia|exact Hst]|].
      destruct rest as [|next rest'].
      * now apply (closeBlock_under st blk below (js "}")).
      * cbn [length] in Hlen. destruct (isIfChainDirective next).
        -- apply IH; [lia|]. now apply (chainBlock_under st blk below next).
        -- apply IH; [cbn [length]; lia|].
           now apply (closeBlock_under st blk below (js "}")).
    + destruct (isControlFlowDirective v).
      * apply IH; [lia | now apply openBlock_under].
      * apply IH; [lia|]. apply pushIfNotBlank_under; [exact Hst|].
        apply formatFragment_startsWith.
Qed.

Lemma elementChildren_under (children : list node) :
  forall st : loopState,
    stateUnder base st ->
    stateUnder base (elementChildren formatElement base children st).
Proof.
  induction children as [|child children IH]; intros st Hst; [exact Hst|].
  cbn [elementChildren]. apply IH.
  assert (R : stateUnder base
                (pushIfNotBlank (formatElement child (currentIndent st base))
                   st)).
  { apply pushIfNotBlank_under; [exact Hst | apply formatElement_startsWith]. }
  destruct (isText child); [|exact R].
  destruct (nvalue child) as [[|c s]|]; try exact R.
  now apply (elementParts_under (length (splitText (c :: s)))).
Qed.

Lemma processNode_under (n : node) (st : loopState) :
  stateUnder base st -> stateUnder base (processNode n base st).
Proof.
  intros Hst. unfold processNode. destruct (isText n).
  - destruct (nvalue n) as [[|c s]|]; try exact Hst.
    destruct (truthy (trim (c :: s))); [|exact Hst].
    now apply (rootParts_under (length (splitText (c :: s)))).
  - apply pushIfNotBlank_under; [exact Hst | apply formatElement_startsWith].
Qed.

Lemma fold_processNode_under (nodes : list node) :
  forall st : loopState,
    stateUnder base st ->
    stateUnder base (fold_left (fun st n => processNode n base st) nodes st).
Proof.
  induction nodes as [|n nodes IH]; intros st Hst; [exact Hst|].
  cbn [fold_left]. apply IH. now apply processNode_under.
Qed.

Lemma stateUnder_init : stateUnder base (LoopState [] []).
Proof. split; constructor. Qed.

End LoopInvariant.

(** X11: at every point of the two loops, the content indent of each open
    block is its indent and exactly 2 spaces, and its indent starts with
    the base indent: this holds for the stack that the loop of
    [formatRoot] ends with, whatever the nodes are, and for the stack at
    the end of the children of an element. *)
Theorem blocks_indent_by_two
    (nodes children : list node) (baseIndent indent : jsstring) :
  Forall (blockUnder baseIndent) (stack (rootState nodes baseIndent))
  /\ Forall (blockUnder (indent ++ js "  "))
       (stack (elementChildren formatElement (indent ++ js "  ") children
                 (LoopState [] []))).
Proof.
  split.
  - apply (fold_processNode_under baseIndent nodes), stateUnder_init.
  - apply (elementChildren_under (indent ++ js "  ") children),
      stateUnder_init.
Qed.

(** X12: every line that [formatRoot] joins starts with the base indent,
    and every line collected for the children of an element starts with
    the indent of the element and 2 spaces: nothing is printed to the left
    of its parent. *)
Theorem lines_start_with_base_indent
    (nodes children : list node) (baseIndent indent : jsstring) :
  formatRoot nodes baseIndent
  = join [NL] (lines (rootState nodes baseIndent))
  /\ Forall (startsWith baseIndent) (lines (rootState nodes baseIndent))
  /\ Forall (startsWith (indent ++ js "  "))
       (lines (elementChildren formatElement (indent ++ js "  ") children
                 (LoopState [] []))).
Proof.
  split; [reflexivity|]. split.
  - apply (fold_processNode_under baseIndent nodes), stateUnder_init.
  - apply (elementChildren_under (indent ++ js "  ") children),
      stateUnder_init.
Qed.

(* ================================================================== *)
(** ** The top-level loop: blank texts, comments, independent parts *)

Section RootLoop.

Variable base : jsstring.

Lemma rootState_app (a b : list node) :
  rootState (a ++ b) base
  = fold_left (fun st n => processNode n base st) b (rootState a base).
Proof. unfold rootState. apply fold_left_app. Qed.

Lemma elementChildren_app (fmt : node -> jsstring -> jsstring)
    (a b : list node) :
  forall st,
    elementChildren fmt base (a ++ b) st
    = elementChildren fmt base b (elementChildren fmt base a st).
Proof.
  induction a as [|n a IH]; intros st; [reflexivity|].
  cbn [app elementChildren]. apply IH.
Qed.

Lemma processNode_blank (n : node) (st : loopState) :
  isText n = true ->
  match nvalue n with Some v => allSpace v = true | None => True end ->
  processNode n base st = st.
Proof.
  intros Ht Hv. unfold processNode. rewrite Ht.
  destruct (nvalue n) as [[|c s]|]; try reflexivity.
  now rewrite trim_truthy, Hv.
Qed.

Lemma commentLine_not_blank (ind value : jsstring) :
  truthy (trim (commentLine ind value)) = true.
Proof.
  rewrite trim_truthy. unfold commentLine. rewrite allSpace_app.
  cbn. now rewrite andb_false_r.
Qed.

Lemma currentIndent_prepend (L : list jsstring) (st : loopState) :
  currentIndent (prependLines L st) base = currentIndent st base.
Proof. reflexivity. Qed.

Lemma pushIfNotBlank_prepend (L : list jsstring) (l : jsstring)
    (st : loopState) :
  pushIfNotBlank l (prependLines L st) = prependLines L (pushIfNotBlank l st).
Proof.
  unfold pushIfNotBlank. destruct (truthy (trim l)); [|reflexivity].
  unfold pushLine, prependLines. cbn [stack lines]. now rewrite app_assoc.
Qed.

Lemma openBlock_prepend (L : list jsstring) (v : jsstring) (st : loopState) :
  openBlock v base (prependLines L st) = prependLines L (openBlock v base st).
Proof.
  unfold openBlock, prependLines. cbn [stack lines].
  rewrite app_assoc. reflexivity.
Qed.

Lemma rootParts_prepend (L : list jsstring) :
  forall (n : nat) (parts : list jsstring) (st : loopState),
    length parts <= n ->
    rootParts base parts (prependLines L st)
    = prependLines L (rootParts base parts st).
Proof.
  induction n as [|n IH]; intros parts st Hlen.
  - destruct parts; [reflexivity | cbn in Hlen; lia].
  - destruct parts as [|v rest]; [reflexivity|]. cbn [length] in Hlen.
    cbn [rootParts]. rewrite currentIndent_prepend.
    change (stack (prependLines L st)) with (stack st).
    change (lines (prependLines L st)) with (L ++ lines st).
    destruct (streq v closer).
    + destruct (stack st) as [|blk below] eqn:E; [apply IH; lia|].
      destruct rest as [|next rest'].
      * unfold prependLines. cbn [stack lines]. now rewrite app_assoc.
      * cbn [length] in Hlen. rewrite <- !app_assoc.
        destruct (isIfChainDirective next).
        -- rewrite <- IH by lia. reflexivity.
        -- rewrite <- IH by (cbn [length]; lia). reflexivity.
    + destruct (isControlFlowDirective v).
      * rewrite openBlock_prepend. apply IH. lia.
      * rewrite pushIfNotBlank_prepend. apply IH. lia.
Qed.

Lemma processNode_prepend (L : list jsstring) (n : node) (st : loopState) :
  processNode n base (prependLines L st)
  = prependLines L (processNode n base st).
Proof.
  unfold processNode. rewrite currentIndent_prepend. destruct (isText n).
  - destruct (nvalue n) as [[|c s]|]; try reflexivity.
    destruct (truthy (trim (c :: s))); [|reflexivity].
    now apply (rootParts_prepend L (length (splitText (c :: s)))).
  - apply pushIfNotBlank_prepend.
Qed.

Lemma fold_processNode_prepend (L : list jsstring) (nodes : list node) :
  forall st,
    fold_left (fun st n => processNode n base st) nodes (prependLines L st)
    = prependLines L (fold_left (fun st n => processNode n base st) nodes st).
Proof.
  induction nodes as [|n nodes IH]; intros st; [reflexivity|].
  cbn [fold_left]. rewrite processNode_prepend. apply IH.
Qed.

End RootLoop.

(** X13: a top-level text node that is blank, empty or without a value
    adds nothing: the output is the one of the nodes around it. *)
Theorem blank_text_node_skipped (a b : list node) (n : node)
    (baseIndent : jsstring) :
  isText n = true ->
  match nvalue n with Some v => allSpace v = true | None => True end ->
  formatRoot (a ++ n :: b) baseIndent = formatRoot (a ++ b) baseIndent.
Proof.
  intros Ht Hv.
  change (join [NL] (lines (rootState (a ++ n :: b) baseIndent))
          = join [NL] (lines (rootState (a ++ b) baseIndent))).
  rewrite !rootState_app. cbn [fold_left].
  now rewrite processNode_blank.
Qed.

Lemma blank_text_node_skipped_witness :
  formatRoot ([commentNode (js "a")] ++ textNode (js "  ")
                :: [commentNode (js "b")]) []
  = formatRoot ([commentNode (js "a")] ++ [commentNode (js "b")]) [].
Proof.
  exact (blank_text_node_skipped [commentNode (js "a")] [commentNode (js "b")]
           (textNode (js "  ")) [] eq_refl eq_refl).
Defined.

(** X14: a comment is never dropped and never changed: at the top level
    and among the children of an element it adds exactly one line, the
    current indent and the comment with its raw text, and leaves the open
    blocks as they are. *)
Theorem comment_kept_as_it_is
    (nodes : list node) (value base : jsstring) (st : loopState) :
  let line ind := commentLine ind value in
  rootState (nodes ++ [commentNode value]) base
  = pushLine (line (currentIndent (rootState nodes base) base))
      (rootState nodes base)
  /\ elementChildren formatElement base (nodes ++ [commentNode value]) st
     = pushLine
         (line (currentIndent (elementChildren formatElement base nodes st)
                  base))
         (elementChildren formatElement base nodes st).
Proof.
  intros line. split.
  - rewrite rootState_app. cbn [fold_left]. unfold processNode.
    change (isText (commentNode value)) with false. cbv iota.
    change (formatElement (commentNode value) ?i) with (commentLine i value).
    unfold pushIfNotBlank. now rewrite commentLine_not_blank.
  - rewrite elementChildren_app. cbn [elementChildren].
    change (isText (commentNode value)) with false. cbv iota.
    change (formatElement (commentNode value) ?i) with (commentLine i value).
    unfold pushIfNotBlank. now rewrite commentLine_not_blank.
Qed.

(** X15: when the nodes of a first part leave no block open, the nodes
    after them are formatted on their own: the lines of the whole are the
    lines of the first part followed by the lines of the rest. *)
Theorem closed_part_formats_independently (a b : list node)
    (baseIndent : jsstring) :
  stack (rootState a baseIndent) = [] ->
  rootState (a ++ b) baseIndent
  = prependLines (lines (rootState a baseIndent)) (rootState b baseIndent)
  /\ formatRoot (a ++ b) baseIndent
     = join [NL] (lines (rootState a baseIndent)
                    ++ lines (rootState b baseIndent)).
Proof.
  intros Hs.
  assert (E : rootState (a ++ b) baseIndent
              = prependLines (lines (rootState a baseIndent))
                  (rootState b baseIndent)).
  { rewrite rootState_app.
    replace (rootState a baseIndent)
      with (prependLines (lines (rootState a baseIndent)) (LoopState [] []))
      at 1.
    - apply fold_processNode_prepend.
    - unfold prependLines. cbn [stack lines]. rewrite app_nil_r, <- Hs.
      now destruct (rootState a baseIndent). }
  split; [exact E|].
  change (formatRoot (a ++ b) baseIndent)
    with (join [NL] (lines (rootState (a ++ b) baseIndent))).
  now rewrite E.
Qed.

Lemma closed_part_formats_independently_witness :
  formatRoot ([textNode (js "@if (a) { x }")] ++ [textNode (js "y }")]) []
  = join [NL] (lines (rootState [textNode (js "@if (a) { x }")] [])
                 ++ lines (rootState [textNode (js "y }")] [])).
Proof.
  exact (proj2 (closed_part_formats_independently
                  [textNode (js "@if (a) { x }")] [textNode (js "y }")] []
                  eq_refl)).
Defined.

(* ================================================================== *)
(** ** A block, its body and its closer *)

Section BlockBody.

Variable base : jsstring.

Lemma streq_eq (a : jsstring) : forall b, streq a b = true -> a = b.
Proof.
  induction a as [|x a IH]; intros [|y b] H; cbn in H; try discriminate;
    [reflexivity|].
  apply andb_prop in H as [H1 H2]. apply N.eqb_eq in H1. subst y.
  f_equal. now apply IH.
Qed.

Lemma directive_not_closer (v : jsstring) :
  isControlFlowDirective v = true -> streq v closer = false.
Proof.
  intros H. destruct (streq v closer) eqn:E; [|reflexivity].
  apply streq_eq in E. subst v. rewrite closer_not_directive in H.
  discriminate.
Qed.

(** The lines that plain fragments add, one after the other. *)
Lemma plain_fold (body : list jsstring) :
  forall st : loopState,
    fold_left (fun st v =>
                 pushIfNotBlank (formatFragment v (currentIndent st base)) st)
      body st
    = LoopState (stack st)
        (lines st ++ plainLines (currentIndent st base) body).
Proof.
  induction body as [|v body IH]; intros st.
  - cbn. rewrite app_nil_r. now destruct st.
  - cbn [fold_left]. rewrite IH. unfold plainLines, pushIfNotBlank.
    cbn [map filter].
    destruct (truthy (trim (formatFragment v (currentIndent st base))));
      [|reflexivity].
    cbn [pushLine stack lines currentIndent]. unfold currentIndent.
    cbn [stack]. now rewrite <- app_assoc.
Qed.

Lemma rootParts_plain (body tl : list jsstring) :
  Forall plainFragment body ->
  forall st,
    rootParts base (body ++ tl) st
    = rootParts base tl
        (LoopState (stack st)
           (lines st ++ plainLines (currentIndent st base) body)).
Proof.
  intros H st. rewrite <- plain_fold. revert st.
  induction H as [|v body [Hd Hc] _ IH]; intros st; [reflexivity|].
  cbn [app rootParts fold_left]. rewrite Hc, Hd. apply IH.
Qed.

Lemma elementParts_plain (body tl : list jsstring) :
  Forall plainFragment body ->
  forall st,
    elementParts base (body ++ tl) st
    = elementParts base tl
        (LoopState (stack st)
           (lines st ++ plainLines (currentIndent st base) body)).
Proof.
  intros H st. rewrite <- plain_fold. revert st.
  induction H as [|v body [Hd Hc] _ IH]; intros st; [reflexivity|].
  cbn [app elementParts fold_left]. rewrite Hc, Hd. apply IH.
Qed.

End BlockBody.

(** X16: a directive, plain fragments and a closer that no chained
    continuation follows print as the directive line at the current
    indent, the fragments 2 spaces deeper, and the closer at the indent of
    the directive; the stack of open blocks is afterwards what it was
    before.  Both loops do the same. *)
Theorem block_body_indented
    (base opener : jsstring) (body rest : list jsstring) (st : loopState) :
  isControlFlowDirective opener = true ->
  Forall plainFragment body ->
  match rest with
  | next :: _ => isIfChainDirective next = false
  | [] => True
  end ->
  let cur := currentIndent st base in
  let after :=
    LoopState (stack st)
      (lines st ++ [formatControlFlow opener cur]
         ++ plainLines (cur ++ js "  ") body ++ [cur ++ js "}"]) in
  rootParts base (opener :: body ++ closer :: rest) st
  = rootParts base rest after
  /\ elementParts base (opener :: body ++ closer :: rest) st
     = elementParts base rest after.
Proof.
  intros Ho Hb Hr cur after. split.
  - cbn [rootParts]. rewrite (directive_not_closer _ Ho), Ho.
    rewrite rootParts_plain by exact Hb.
    cbn [openBlock stack lines currentIndent contentIndent].
    unfold currentIndent at 1. cbn [stack contentIndent].
    cbn [rootParts]. change (streq closer closer) with true. cbv iota.
    cbn [stack lines indent]. fold cur.
    replace ((lines st ++ [formatControlFlow opener cur])
               ++ plainLines (cur ++ js "  ") body)
      with (lines st ++ [formatControlFlow opener cur]
              ++ plainLines (cur ++ js "  ") body)
      by (now rewrite <- app_assoc).
    destruct rest as [|next rest'].
    + subst after. cbn [rootParts]. now rewrite <- !app_assoc.
    + rewrite Hr. subst after. now rewrite <- !app_assoc.
  - cbn [elementParts]. rewrite Ho.
    rewrite elementParts_plain by exact Hb.
    cbn [openBlock stack lines currentIndent contentIndent].
    unfold currentIndent at 1. cbn [stack contentIndent].
    cbn [elementParts]. rewrite closer_not_directive.
    change (streq closer closer) with true. cbv iota.
    cbn [stack lines indent]. fold cur.
    destruct rest as [|next rest'].
    + subst after. cbn [elementParts]. now rewrite <- !app_assoc.
    + rewrite Hr. subst after. now rewrite <- !app_assoc.
Qed.

Lemma block_body_indented_witness :
  rootParts (js "  ") (js "@if (a) {" :: [js "x"; js "y"] ++ closer :: [])
    (LoopState [] [])
  = LoopState []
      [js "  @if (a) {"; js "    x"; js "    y"; js "  }"].
Proof.
  refine (proj1 (block_body_indented (js "  ") (js "@if (a) {")
                   [js "x"; js "y"] [] (LoopState [] []) eq_refl _ I)).
  repeat constructor.
Defined.

(* ================================================================== *)
(** ** Text children and interpolations, end to end *)

Section EndToEnd.

Lemma trimStart_idem (s : jsstring) : trimStart (trimStart s) = trimStart s.
Proof.
  destruct (trimStart_split s) as [_ [_ [_ H]]].
  destruct (trimStart s) as [|c t]; [reflexivity | now apply trimStart_head].
Qed.

Lemma trim_idem (s : jsstring) : trim (trim s) = trim s.
Proof.
  pose proof (trim_head s) as H. unfold trim at 1.
  destruct (trim s) as [|c t] eqn:E; [reflexivity|].
  rewrite trimStart_head by exact H. rewrite <- E. unfold trim, trimEnd.
  now rewrite rev_involutive, trimStart_idem.
Qed.

Lemma splitText_plain (v : jsstring) :
  v <> [] ->
  test protectRe v = false ->
  ~ In closeBrace v ->
  test directiveMarkerRe v = false ->
  test placeholderRe v = false ->
  splitText v = if allSpace v then [] else [trim v].
Proof.
  intros Hv Hi Hc Hd Hp.
  unfold splitText. rewrite replaceSt_no_match by exact Hi.
  rewrite split_no_match; [|exact Hv|].
  - destruct v as [|c s]; [contradiction|].
    cbn [filterBoolean map filter]. rewrite trim_truthy.
    destruct (allSpace (c :: s)); cbn [negb map]; [reflexivity|].
    unfold restore. rewrite replace_no_match; [reflexivity|].
    destruct (trim_split (c :: s)) as [a [b [E _]]].
    apply (test_substring placeholderRe a _ b); [reflexivity|].
    now rewrite <- E.
  - intros pre post E. now apply (splitRe_no_match v pre post).
Qed.

Lemma protectRe_no_closer (v : jsstring) :
  ~ In closeBrace v -> test protectRe v = false.
Proof.
  intros H. destruct (test protectRe v) eqn:E; [|reflexivity]. exfalso.
  apply test_true_iff in E as [pre [w [rest [caps [E M]]]]].
  apply protectRe_braced in M as [m ->]. apply H. rewrite E.
  rewrite !in_app_iff. right. left. right. right. now left.
Qed.

Lemma isInterpolation_no_closer (v : jsstring) :
  ~ In closeBrace v -> isInterpolation v = false.
Proof.
  intros H. destruct (isInterpolation v) eqn:E; [|reflexivity]. exfalso.
  apply isInterpolation_shape in E as [a [b [c [d [e [E _]]]]]].
  apply H. rewrite E. rewrite !in_app_iff.
  right. right. right. right. right. left. now left.
Qed.

Lemma formatInterpolation_span (inner indent : jsstring) :
  ~ In closeBrace inner ->
  noLineTerminator (trim inner) = true ->
  formatInterpolation (js "{{" ++ inner ++ js "}}") indent
  = indent ++ js "{{ " ++ trim inner ++ js " }}".
Proof.
  intros Hin Hp.
  destruct (search_span inner (firstClosing_no_brace inner Hin) Hp)
    as [a [c [b [E [Ha [Hb S]]]]]].
  unfold formatInterpolation, replace, replaceSt.
  rewrite (scanAll_single _ _ _ S); cbn [fmatch frest];
    [|discriminate|reflexivity|reflexivity].
  cbn [replaceFold fpre fcaps getCap Nat.eqb tpl snd app].
  rewrite app_nil_r. rewrite E, trim_between by assumption. reflexivity.
Qed.

Lemma isSpaceNR_isSpace (c : N) : isSpaceNR c = isSpace c.
Proof.
  unfold isSpaceNR.
  destruct (N.eqb_spec c 10) as [->|]; [reflexivity|].
  destruct (N.eqb_spec c 13) as [->|]; [reflexivity|].
  now rewrite !orb_false_r.
Qed.

Lemma collapseRun_ext (p q : N -> bool) (s : jsstring) :
  (forall c, p c = q c) ->
  forall b, collapseRun p b s = collapseRun q b s.
Proof.
  intros H. induction s as [|c s IH]; intros b; cbn [collapseRun];
    [reflexivity|].
  rewrite H. destruct (q c); [destruct b|]; now rewrite ?IH.
Qed.

Lemma normalized_expression (inner : jsstring) :
  trim (replace (Plus isSpaceNR) (fun _ => [SP]) inner)
  = trim (collapseSpaces inner).
Proof.
  unfold collapseSpaces. rewrite !replace_plus.
  now rewrite (collapseRun_ext isSpaceNR isSpace inner isSpaceNR_isSpace).
Qed.

End EndToEnd.

(** X17: an element without attributes whose only child is a plain text,
    with no closing brace, no directive marker, no placeholder token and
    not starting with the at sign, is printed on three lines: the opening
    tag, the trimmed text 2 spaces deeper, the closing tag.  The closing
    tag is printed whatever the tag name is. *)
Theorem element_with_plain_text
    (type name indent v : jsstring) (value : option jsstring)
    (attrs : option (list attr)) (c : N) (t : jsstring) :
  streq type (js "comment") = false ->
  streq type (js "text") = false ->
  name <> [] ->
  hasItems attrs = false ->
  ~ In closeBrace v ->
  test directiveMarkerRe v = false ->
  test placeholderRe v = false ->
  trim v = c :: t -> c <> atSign ->
  formatElement (Node type value (Some name) attrs (Some [textNode v])) indent
  = indent ++ js "<" ++ name ++ js ">" ++ [NL]
      ++ (indent ++ js "  ") ++ trim v ++ [NL]
      ++ indent ++ js "</" ++ name ++ js ">".
Proof.
  intros Hc Ht Hn Ha Hcl Hd Hp Etrim Hat.
  assert (Hv : v <> []) by (intros ->; discriminate).
  assert (Hns : allSpace v = false).
  { destruct (allSpace v) eqn:E; [|reflexivity].
    apply trim_nil in E. congruence. }
  pose proof (trim_head v) as Hhead. rewrite Etrim in Hhead.
  assert (S : splitText v = [trim v]).
  { rewrite splitText_plain; try assumption;
      [now rewrite Hns | now apply protectRe_no_closer]. }
  assert (F : formatFragment (trim v) (indent ++ js "  ")
              = (indent ++ js "  ") ++ trim v).
  { unfold formatFragment. rewrite Etrim. cbn [truthy]. rewrite <- Etrim.
    unfold formatText. rewrite trim_idem, Etrim. cbn [truthy negb].
    rewrite (not_directive_by_head c t Hhead Hat). rewrite <- Etrim.
    rewrite isInterpolation_no_closer; [reflexivity|].
    intros H. now apply Hcl, trim_In. }
  assert (P : elementParts (indent ++ js "  ") [trim v] (LoopState [] [])
              = LoopState [] [(indent ++ js "  ") ++ trim v]).
  { cbn [elementParts]. rewrite Etrim at 1.
    rewrite (not_directive_by_head c t Hhead Hat).
    assert (R : pushIfNotBlank
                  (formatFragment (trim v)
                     (currentIndent (LoopState [] []) (indent ++ js "  ")))
                  (LoopState [] [])
                = LoopState [] [(indent ++ js "  ") ++ trim v]).
    { cbn [currentIndent stack]. rewrite F.
      unfold pushIfNotBlank. rewrite trim_truthy, allSpace_app.
      assert (allSpace (trim v) = false) as ->.
      { rewrite Etrim. cbn. now rewrite Hhead. }
      now rewrite andb_false_r. }
    destruct (streq (trim v) closer); cbn [stack]; exact R. }
  destruct v as [|v0 v']; [contradiction|].
  set (V := v0 :: v') in *.
  assert (Hcont : hasContent (Some [textNode V]) = true).
  { unfold hasContent. cbn [existsb]. change (isText (textNode V)) with true.
    cbv iota. change (nvalue (textNode V)) with (Some (v0 :: v')).
    cbv iota. fold V. now rewrite trim_truthy, Hns. }
  rewrite formatElement_element by assumption. cbv zeta.
  rewrite Hcont. cbn [negb andb hasItems].
  unfold openingTag. rewrite Ha. cbn [elementChildren].
  change (isText (textNode V)) with true. cbv iota.
  change (nvalue (textNode V)) with (Some (v0 :: v')). cbv iota. fold V.
  rewrite S, P. cbn [lines join]. repeat rewrite <- app_assoc. reflexivity.
Qed.

Lemma element_with_plain_text_witness :
  formatElement
    (Node (js "element") None (Some (js "span")) None
       (Some [textNode (js " Short   text ")])) (js "  ")
  = js "  <span>" ++ [NL] ++ js "    Short   text" ++ [NL] ++ js "  </span>".
Proof.
  refine (element_with_plain_text (js "element") (js "span") (js "  ")
            (js " Short   text ") None None 83 (js "hort   text")
            eq_refl eq_refl _ eq_refl _ eq_refl eq_refl eq_refl _);
    try discriminate.
  cbv. intuition discriminate.
Defined.

(** X18: a top-level text that is one interpolation, whose expression has
    no closing brace, is printed as the base indent, the opening delimiter
    and a space, the expression with its runs of white space collapsed to
    single spaces and trimmed, a space and the closing delimiter. *)
Theorem interpolation_normalized (inner baseIndent : jsstring) :
  ~ In closeBrace inner ->
  formatRoot [textNode (js "{{" ++ inner ++ js "}}")] baseIndent
  = baseIndent ++ js "{{ " ++ trim (collapseSpaces inner) ++ js " }}".
Proof.
  intros Hin. set (x := trim (collapseSpaces inner)).
  assert (Hx : ~ In closeBrace x).
  { intros H. apply trim_In in H. unfold collapseSpaces in H.
    rewrite replace_plus in H.
    apply collapseRun_In in H as [H|H]; [discriminate | now apply Hin]. }
  assert (Hm : ~ In closeBrace ([SP] ++ x ++ [SP])).
  { rewrite !in_app_iff. intros [H|[H|H]]; try (now apply Hx);
      destruct H as [H|[]]; discriminate. }
  assert (Tm : trim ([SP] ++ x ++ [SP]) = x).
  { rewrite trim_between by reflexivity. apply trim_idem. }
  set (frag := js "{{" ++ ([SP] ++ x ++ [SP]) ++ js "}}").
  assert (S : splitText (js "{{" ++ inner ++ js "}}") = [frag]).
  { rewrite splitText_single_span by exact Hin. rewrite normalized_expression.
    fold x. unfold frag. cbn [app]. now rewrite <- !app_assoc. }
  assert (Tf : trim frag = frag) by apply trim_braces.
  assert (Nd : isControlFlowDirective frag = false).
  { apply (not_directive_by_head openBrace
             (openBrace :: ([SP] ++ x ++ [SP]) ++ js "}}"));
      [reflexivity | discriminate]. }
  assert (Ip : isInterpolation frag = true).
  { apply isInterpolation_delimited. rewrite Tm.
    apply collapsed_trimmed_noLineTerminator. }
  assert (F : formatFragment frag baseIndent
              = baseIndent ++ js "{{ " ++ x ++ js " }}").
  { unfold formatFragment, formatText. change (truthy frag) with true.
    cbv iota. rewrite Tf. change (truthy frag) with true. cbn [negb].
    rewrite Nd, Ip. unfold frag.
    rewrite formatInterpolation_span; [now rewrite Tm|exact Hm|].
    rewrite Tm. apply collapsed_trimmed_noLineTerminator. }
  assert (P : processNode (textNode (js "{{" ++ inner ++ js "}}")) baseIndent
                (LoopState [] [])
              = LoopState [] [baseIndent ++ js "{{ " ++ x ++ js " }}"]).
  { unfold processNode. change (isText (textNode ?v)) with true. cbv iota.
    change (nvalue (textNode (js "{{" ++ inner ++ js "}}")))
      with (Some (openBrace :: openBrace :: inner ++ js "}}")).
    cbv iota.
    change (openBrace :: openBrace :: inner ++ js "}}")
      with (js "{{" ++ inner ++ js "}}").
    rewrite trim_braces.
    change (truthy (js "{{" ++ inner ++ js "}}")) with true.
    cbv iota. rewrite S. cbn [rootParts].
    change (streq frag closer) with false. cbv iota. rewrite Nd.
    cbn [currentIndent stack]. rewrite F. unfold pushIfNotBlank.
    rewrite trim_truthy, allSpace_app.
    change (allSpace (js "{{ " ++ x ++ js " }}")) with false.
    now rewrite andb_false_r. }
  unfold formatRoot. cbn [fold_left]. rewrite P. reflexivity.
Qed.

Lemma interpolation_normalized_witness :
  formatRoot [textNode (js "{{   user.name   |  upper  }}")] (js "  ")
  = js "  {{ user.name | upper }}".
Proof.
  refine (interpolation_normalized (js "   user.name   |  upper  ") (js "  ") _).
  cbv. intuition discriminate.
Defined.

(* ================================================================== *)
(** ** The doctype *)

Section Doctype.

Lemma matches_LitCI_inv (l : jsstring) :
  forall prev w rest caps caps',
    matches (LitCI l) prev w rest caps caps' ->
    sameIgnoringCase w l /\ caps' = caps.
Proof.
  unfold sameIgnoringCase.
  induction l as [|c l IH]; intros prev w rest caps caps' H; cbn [LitCI] in H.
  - inversion H; auto.
  - inversion H as [| | |r1 r2 p w1 w2 rs c0 c1 c2 H1 H2 | | | | | | | | ]; subst.
    inversion H1 as [| |q x p0 rs0 c3 Hx| | | | | | | | | ]; subst.
    apply IH in H2 as [E ->]. apply N.eqb_eq in Hx.
    cbn [app map]. now rewrite Hx, E.
Qed.

Lemma matches_LitCI (l : jsstring) :
  forall w prev rest caps,
    sameIgnoringCase w l -> matches (LitCI l) prev w rest caps caps.
Proof.
  unfold sameIgnoringCase.
  induction l as [|c l IH]; intros [|x w] prev rest caps E; cbn in E;
    try discriminate; cbn [LitCI].
  - constructor.
  - injection E as Ex E. change (x :: w) with ([x] ++ w).
    econstructor; [constructor; now apply N.eqb_eq | now apply IH].
Qed.

Lemma app_same_length (a a' b b' : jsstring) :
  length a = length a' -> a ++ b = a' ++ b' -> a = a' /\ b = b'.
Proof.
  revert a'. induction a as [|x a IH]; intros [|y a'] L E; cbn in L;
    try discriminate; [auto|].
  cbn in E. injection E as -> E. injection L as L.
  destruct (IH a' L E) as [-> ->]. auto.
Qed.

(** The first [>] of a text splits it in one way only. *)
Lemma first_greater (x : jsstring) :
  forall y r r',
    forallb notGreater x = true -> forallb notGreater y = true ->
    x ++ js ">" ++ r = y ++ js ">" ++ r' -> x = y /\ r = r'.
Proof.
  induction x as [|c x IH]; intros [|d y] r r' Hx Hy E; cbn in E, Hx, Hy.
  - injection E as E. auto.
  - injection E as <- _. discriminate.
  - injection E as -> _. discriminate.
  - injection E as <- E.
    apply andb_prop in Hx as [_ Hx]. apply andb_prop in Hy as [_ Hy].
    destruct (IH y r r' Hx Hy E) as [-> ->]. auto.
Qed.

Lemma doctypeRe_matches prev w rest caps caps' :
  matches doctypeRe prev w rest caps caps' <->
  prev = None /\ caps' = caps
  /\ exists h body,
       w = h ++ body ++ js ">" /\ sameIgnoringCase h (js "<!DOCTYPE")
       /\ forallb notGreater body = true.
Proof.
  unfold doctypeRe. cbn [Seqs]. split.
  - intros M.
    inversion M as [| | |r1 r2 p w1 w2 rs c0 c1 c2 M1 M2 | | | | | | | | ];
      subst. inversion M1; subst.
    inversion M2 as [| | |r1 r2 p w1 w3 rs c0 c3 c4 M3 M4 | | | | | | | | ];
      subst. apply (matches_LitCI_inv (js "<!DOCTYPE")) in M3 as [Eh ->].
    inversion M4 as [| | |r1 r2 p w4 w5 rs c0 c5 c6 M5 M6 | | | | | | | | ];
      subst. inversion M5; subst.
    apply matches_LitL_inv in M6 as [-> ->].
    match goal with H : atLineStart false _ = true |- _ =>
      apply atLineStart_false in H end.
    repeat split; try assumption. cbn [app]. eauto.
  - intros [-> [-> [h [body [-> [Eh Hb]]]]]].
    apply matches_seq_bol; [reflexivity|].
    econstructor; [now apply matches_LitCI|].
    apply matches_seq_star; [exact Hb|].
    rewrite <- (app_nil_r (js ">")). apply matches_LitL.
Qed.

Lemma notGreater_all (body : jsstring) :
  forallb notGreater body = true <-> ~ In greaterThan body.
Proof.
  rewrite forallb_forall. unfold notGreater. split.
  - intros H Hin. apply H in Hin. discriminate.
  - intros H x Hx. destruct (N.eqb_spec x 62) as [->|]; [|reflexivity].
    contradiction.
Qed.

Lemma doctypeOf_sound (text d : jsstring) :
  doctypeOf text = Some d ->
  exists h body rest,
    text = d ++ rest /\ d = h ++ body ++ js ">"
    /\ sameIgnoringCase h (js "<!DOCTYPE")
    /\ ~ In greaterThan body.
Proof.
  unfold doctypeOf, exec.
  destruct (search doctypeRe None text) as [m|] eqn:S; [|discriminate].
  intros E. injection E as <-. apply search_sound in S as [E M].
  apply doctypeRe_matches in M as [Hp [_ [h [body [Ew [Eh Hb]]]]]].
  apply lastOr_None in Hp. rewrite Hp in E. cbn [app] in E.
  exists h, body, (frest m). repeat split; try assumption.
  now apply notGreater_all.
Qed.

End Doctype.

(** X19: the doctype that the parsers keep is the start of the text up to
    its first [>], when the text starts with the nine code units of the
    doctype opening in any mix of capital and small letters; it is kept as
    it is written.  No other text has a doctype. *)
Theorem doctype_up_to_first_greater (text d : jsstring) :
  doctypeOf text = Some d <->
  exists h body rest,
    text = d ++ rest /\ d = h ++ body ++ js ">"
    /\ sameIgnoringCase h (js "<!DOCTYPE")
    /\ ~ In greaterThan body.
Proof.
  split; [apply doctypeOf_sound|].
  intros [h [body [rest [-> [-> [Eh Hb]]]]]]. apply notGreater_all in Hb.
  assert (M : matches doctypeRe None (h ++ body ++ js ">") rest [] []).
  { apply doctypeRe_matches. repeat split. eauto. }
  unfold doctypeOf, exec.
  destruct (matchAt doctypeRe None ((h ++ body ++ js ">") ++ rest))
    as [[rest' caps]|] eqn:A.
  - rewrite (search_here _ _ _ _ _ A). f_equal. cbn [fmatch].
    apply matchAt_sound in A as [w [E Mw]].
    apply doctypeRe_matches in Mw as [_ [_ [h' [body' [-> [Eh' Hb']]]]]].
    assert (L : length h = length h').
    { apply (f_equal (@length N)) in Eh, Eh'.
      rewrite !length_map in Eh, Eh'. congruence. }
    rewrite <- !app_assoc in E.
    destruct (app_same_length _ _ _ _ L E) as [<- E'].
    apply first_greater in E' as [<- <-]; [|assumption|assumption].
    apply consumed_app.
  - apply matchAt_complete in M. contradiction.
Qed.

(** X20: when the text has a doctype, the printed document starts with
    this doctype, as it stands at the start of the text, and a line break;
    the formatted nodes follow. *)
Theorem print_keeps_doctype (text d : jsstring) (children : list node) :
  doctypeOf text = Some d ->
  startsWith d text
  /\ printRoot (doctypeOf text) children
     = d ++ [NL] ++ formatRoot children [].
Proof.
  intros H. rewrite H.
  apply doctypeOf_sound in H as [h [body [rest [Et [Ed [Eh _]]]]]].
  split; [now exists rest|]. unfold printRoot.
  destruct d as [|c d'].
  - destruct h as [|x h']; discriminate.
  - now rewrite <- app_assoc.
Qed.

Lemma print_keeps_doctype_witness :
  startsWith (js "<!doctype html>") (js "<!doctype html><p></p>")
  /\ printRoot (doctypeOf (js "<!doctype html><p></p>"))
       [Node (js "element") None (Some (js "p")) None None]
     = js "<!doctype html>" ++ [NL] ++ js "<p></p>".
Proof.
  exact (print_keeps_doctype (js "<!doctype html><p></p>")
           (js "<!doctype html>")
           [Node (js "element") None (Some (js "p")) None None] eq_refl).
Defined.

(* ================================================================== *)
(** ** The matcher on runs: greedy and lazy quantifiers step by step *)

Section Runs.

Lemma rx_LitL (l : jsstring) :
  forall prev s caps (k : cont),
    rx (LitL l) prev (l ++ s) caps k = k (lastOr prev l) s caps.
Proof.
  induction l as [|c l IH]; intros prev s caps k; cbn [LitL rx app lastOr];
    [reflexivity|].
  rewrite N.eqb_refl. apply IH.
Qed.

(** A greedy star over a run that ends before a code unit outside the
    class returns what its continuation returns after the run, when that
    succeeds. *)
Lemma starGreedy_run (p : N -> bool) (k : cont) (caps : captures)
    (res : result) :
  forall (a s : jsstring) (prev : option N),
    forallb p a = true ->
    match s with c :: _ => p c = false | [] => True end ->
    k (lastOr prev a) s caps = Some res ->
    starGreedy p k caps prev (a ++ s) = Some res.
Proof.
  induction a as [|c a IH]; intros s prev Ha Hs Hk; cbn [app lastOr] in *.
  - destruct s as [|d s]; cbn [starGreedy]; [exact Hk|]. now rewrite Hs.
  - cbn in Ha. apply andb_prop in Ha as [Hc Ha]. cbn [starGreedy].
    rewrite Hc. now rewrite (IH s (Some c) Ha Hs Hk).
Qed.

Lemma rx_Plus_run (p : N -> bool) (k : cont) (caps : captures)
    (res : result) (c : N) (a s : jsstring) (prev : option N) :
  forallb p (c :: a) = true ->
  match s with d :: _ => p d = false | [] => True end ->
  k (lastOr prev (c :: a)) s caps = Some res ->
  rx (Plus p) prev ((c :: a) ++ s) caps k = Some res.
Proof.
  intros Ha Hs Hk. cbn in Ha. apply andb_prop in Ha as [Hc Ha].
  unfold Plus. cbn [rx app]. rewrite Hc. now apply starGreedy_run.
Qed.

(** A lazy star stops at the first place where its continuation
    succeeds. *)
Lemma starLazy_first (p : N -> bool) (k : cont) (caps : captures)
    (res : result) :
  forall (a s : jsstring) (prev : option N),
    forallb p a = true ->
    (forall a1 c a2, a = a1 ++ c :: a2 ->
                     k (lastOr prev a1) (c :: a2 ++ s) caps = None) ->
    k (lastOr prev a) s caps = Some res ->
    starLazy p k caps prev (a ++ s) = Some res.
Proof.
  induction a as [|c a IH]; intros s prev Ha Hn Hk; cbn [app lastOr] in *.
  - destruct s; cbn [starLazy]; now rewrite Hk.
  - cbn in Ha. apply andb_prop in Ha as [Hc Ha]. cbn [starLazy].
    pose proof (Hn [] c a eq_refl) as H0. cbn [lastOr] in H0. rewrite H0.
    rewrite Hc. apply IH; [exact Ha| |exact Hk].
    intros a1 d a2 E. apply (Hn (c :: a1) d a2). now rewrite E.
Qed.

Lemma word_not_space (c : N) : isWord c = true -> isSpace c = false.
Proof.
  intros H. destruct (isSpace c) eqn:E; [|reflexivity]. exfalso.
  unfold isWord in H. unfold isSpace in E.
  repeat match goal with
         | H : (_ || _) = true |- _ => apply orb_prop in H; destruct H
         | H : (_ && _) = true |- _ => apply andb_prop in H; destruct H
         | H : (_ <=? _)%N = true |- _ => apply N.leb_le in H
         | H : (_ =? _)%N = true |- _ => apply N.eqb_eq in H
         end; lia.
Qed.

(** Collapsing goes through a code unit that is not white space. *)
Lemma collapseRun_through (p : N -> bool) (d : N) (r : jsstring) :
  p d = false ->
  forall (a : jsstring) (b : bool),
    collapseRun p b (a ++ d :: r)
    = collapseRun p b a ++ d :: collapseRun p false r.
Proof.
  intros Hd. induction a as [|c a IH]; intros b; cbn [app collapseRun].
  - now rewrite Hd.
  - destruct (p c); [destruct b|]; cbn [app]; now rewrite IH.
Qed.

Lemma collapseRun_spaces (p : N -> bool) (a : jsstring) :
  forallb p a = true ->
  collapseRun p false a = match a with [] => [] | _ :: _ => [SP] end
  /\ collapseRun p true a = [].
Proof.
  induction a as [|c a IH]; [auto|]. cbn [forallb collapseRun].
  intros H. apply andb_prop in H as [Hc Ha]. rewrite Hc.
  destruct (IH Ha) as [_ E]. now rewrite E.
Qed.

Lemma collapseRun_words (p : N -> bool) (a : jsstring) :
  (forall c, In c a -> p c = false) ->
  forall b, collapseRun p b a = a.
Proof.
  induction a as [|c a IH]; intros H b; [reflexivity|]. cbn [collapseRun].
  rewrite (H c (or_introl eq_refl)). f_equal. apply IH.
  intros x Hx. apply H. now right.
Qed.

Lemma sliceEnds_last (s : jsstring) (c : N) : sliceEnds 0 1 (s ++ [c]) = s.
Proof.
  unfold sliceEnds. rewrite length_app. cbn [length skipn].
  replace (length s + 1 - 1) with (length s) by lia.
  rewrite firstn_app, Nat.sub_diag, firstn_all. cbn. apply app_nil_r.
Qed.

(** Trimming a text that holds a part starting and ending with something
    else than white space keeps that part and what is before its end. *)
Lemma trim_keeps_body (lead tail : jsstring) (c d : N) (m : jsstring) :
  allSpace lead = true -> isSpace c = false -> isSpace d = false ->
  exists tail',
    trim (lead ++ (c :: m ++ [d]) ++ tail) = (c :: m ++ [d]) ++ tail'.
Proof.
  intros Hl Hc Hd. rewrite trim_spaces_l by exact Hl. unfold trim.
  change ((c :: m ++ [d]) ++ tail) with (c :: (m ++ [d]) ++ tail).
  rewrite trimStart_head by exact Hc.
  change (c :: (m ++ [d]) ++ tail) with ((c :: m ++ [d]) ++ tail).
  destruct (allSpace tail) eqn:E.
  - exists []. rewrite trimEnd_spaces by exact E. rewrite app_nil_r.
    exact (trimEnd_last (c :: m) d Hd).
  - exists (trimEnd tail). unfold trimEnd. rewrite rev_app_distr.
    rewrite trimStart_app_keep by (now rewrite allSpace_rev).
    now rewrite rev_app_distr, rev_involutive.
Qed.

End Runs.

Section DirectiveLine.

Variables (k0 : N) (kw' : jsstring).
Let kw := k0 :: kw'.
Hypothesis kw_word : forallb isWord kw = true.

Variable s1 : jsstring.
Hypothesis s1_space : s1 = [] \/ s1 = [SP].

Lemma after_keyword_not_word (r : jsstring) :
  match s1 ++ 40%N :: r with d :: _ => isWord d = false | [] => True end.
Proof. destruct s1_space as [-> | ->]; reflexivity. Qed.

(** The pattern of the directive, on a keyword, a condition in
    parentheses and the first opening brace: the match ends with that
    brace. *)
Lemma directiveRe_condition (a T : jsstring) :
  forallb isDot (s1 ++ 40%N :: a) = true ->
  ~ In openBrace (s1 ++ 40%N :: a) ->
  exists caps,
    exec directiveRe (atSign :: kw ++ (s1 ++ 40%N :: a) ++ openBrace :: T)
    = Some (Found [] (atSign :: kw ++ (s1 ++ 40%N :: a) ++ [openBrace])
              caps T).
Proof.
  intros Hdot Hbr.
  set (A := s1 ++ 40%N :: a) in *.
  set (n := atSign :: kw ++ A ++ openBrace :: T).
  assert (M : exists caps, matchAt directiveRe None n = Some (T, caps)).
  { unfold matchAt, directiveRe. cbn [Seqs rx atLineStart].
    change (Lit "@") with (Seq (Chr atSign) Eps).
    unfold n. cbn [rx]. rewrite N.eqb_refl.
    eexists. unfold kw at 1.
    apply rx_Plus_run; [exact kw_word | |].
    - unfold A. rewrite <- app_assoc. apply after_keyword_not_word.
    - cbn [rx]. apply starLazy_first; [exact Hdot| |].
      + intros a1 c a2 E. change (Lit "{") with (Seq (Chr openBrace) Eps).
        cbn [rx]. destruct (N.eqb_spec c openBrace) as [->|]; [|reflexivity].
        exfalso. apply Hbr. rewrite E. apply in_or_app. right. now left.
      + change (Lit "{") with (Seq (Chr openBrace) Eps). cbn [rx].
        rewrite N.eqb_refl. reflexivity. }
  destruct M as [caps M]. exists caps. unfold exec.
  rewrite (search_here _ _ _ _ _ M). f_equal. f_equal.
  unfold n.
  replace (atSign :: kw ++ A ++ openBrace :: T)
    with ((atSign :: kw ++ A ++ [openBrace]) ++ T).
  - apply consumed_app.
  - cbn [app]. f_equal. now rewrite <- !app_assoc.
Qed.

Lemma consumed_nil (s : jsstring) : consumed s [] = s.
Proof. unfold consumed. cbn [length]. now rewrite Nat.sub_0_r, firstn_all. Qed.

(** The pattern of the parts, on the keyword and the condition: the first
    group is the keyword with its at sign, the second the condition. *)
Lemma directivePartsRe_condition (a : jsstring) :
  forallb isDot (40%N :: a) = true ->
  exists f,
    exec directivePartsRe (atSign :: kw ++ s1 ++ 40%N :: a) = Some f
    /\ getCap 1 (fcaps f) = Some (atSign :: kw)
    /\ getCap 2 (fcaps f) = Some (40%N :: a).
Proof.
  intros Hdot.
  set (d := atSign :: kw ++ s1 ++ 40%N :: a).
  assert (M : matchAt directivePartsRe None d
              = Some ([], [(2%nat, 40%N :: a); (1%nat, atSign :: kw)])).
  { unfold matchAt, directivePartsRe. cbn [Seqs rx atLineStart].
    change (Lit "@") with (Seq (Chr atSign) Eps).
    unfold d. cbn [rx]. rewrite N.eqb_refl. unfold kw at 1.
    apply rx_Plus_run; [exact kw_word | apply after_keyword_not_word |].
    unfold Opt. cbn [rx].
    assert (G : forall prev,
               starGreedy isDot
                 (fun (prev' : option N) (s' : jsstring) (caps' : captures) =>
                    done prev' s' ((2%nat, consumed (40%N :: a) s') :: caps'))
                 [(1%nat, atSign :: kw)] prev (40%N :: a)
               = Some ([], [(2%nat, 40%N :: a); (1%nat, atSign :: kw)])).
    { intros prev.
      pose proof (starGreedy_run isDot
                    (fun (prev' : option N) (s' : jsstring)
                         (caps' : captures) =>
                       done prev' s'
                         ((2%nat, consumed (40%N :: a) s') :: caps'))
                    [(1%nat, atSign :: kw)]
                    ([], [(2%nat, 40%N :: a); (1%nat, atSign :: kw)])
                    (40%N :: a) [] prev Hdot I) as R.
      rewrite app_nil_r in R. apply R.
      unfold done. now rewrite consumed_nil. }
    assert (C1 : consumed (atSign :: kw ++ s1 ++ 40%N :: a)
                   (s1 ++ 40%N :: a) = atSign :: kw).
    { change (atSign :: kw ++ s1 ++ 40%N :: a)
        with ((atSign :: kw) ++ s1 ++ 40%N :: a). apply consumed_app. }
    rewrite C1.
    match goal with
    | |- match ?t with _ => _ end = _ => assert (X : t = None)
    end.
    { change (Plus isSpace) with (Seq (Cls isSpace) (Star isSpace)).
      change (Lit "if") with (Seq (Chr 105) (Seq (Chr 102) Eps)).
      destruct s1_space as [E | E]; rewrite E; cbn [app rx].
      - reflexivity.
      - change (isSpace SP) with true. cbv iota.
        cbn [starGreedy]. change (isSpace 40) with false. cbv iota.
        cbn [rx]. reflexivity. }
    rewrite X.
    apply starGreedy_run.
    - destruct s1_space as [E | E]; rewrite E; reflexivity.
    - reflexivity.
    - apply G. }
  exists (Found [] (consumed d []) [(2%nat, 40%N :: a); (1%nat, atSign :: kw)] []).
  split; [|split; reflexivity].
  unfold exec. now rewrite (search_here _ _ _ _ _ M).
Qed.

End DirectiveLine.

Section DirectiveNormalForm.

Lemma collapseRun_keep (p : N -> bool) (a r : jsstring) :
  (forall c, In c a -> p c = false) ->
  collapseRun p false (a ++ r) = a ++ collapseRun p false r.
Proof.
  induction a as [|c a IH]; intros H; [reflexivity|].
  cbn [app collapseRun]. rewrite (H c (or_introl eq_refl)). f_equal.
  apply IH. intros x Hx. apply H. now right.
Qed.

Lemma collapsed_spaces (w : jsstring) :
  allSpace w = true ->
  collapseRun isSpace false w = [] \/ collapseRun isSpace false w = [SP].
Proof.
  intros H. destruct (collapseRun_spaces isSpace w H) as [E _]. rewrite E.
  destruct w; auto.
Qed.

Lemma collapseRun_dot (s : jsstring) :
  forallb isDot (collapseRun isSpace false s) = true.
Proof.
  apply singleSpaced_noLineTerminator. apply collapseRun_shape.
Qed.

Lemma collapseRun_no_brace (s : jsstring) :
  ~ In openBrace s -> ~ In openBrace (collapseRun isSpace false s).
Proof.
  intros H Hin. apply collapseRun_In in Hin as [Hin|Hin];
    [discriminate | now apply H].
Qed.

End DirectiveNormalForm.

Ltac norm_app :=
  repeat (progress (cbn [app]; rewrite <- ?app_assoc)); reflexivity.

(** X21: a directive with a condition in parentheses is printed in one
    form. For a text made of white space, an at sign, a keyword of word
    characters, optional white space, a condition in parentheses without
    an opening brace, optional white space, an opening brace and anything
    after it, formatControlFlow returns the indent, the at sign and the
    keyword, one space, the condition in its parentheses with every run of
    white space replaced by one space, and a space and an opening brace;
    what follows the first opening brace is dropped. *)
Theorem formatControlFlow_condition
    (lead kw sp1 cond sp2 rest indent : jsstring) :
  allSpace lead = true ->
  kw <> [] -> forallb isWord kw = true ->
  allSpace sp1 = true -> allSpace sp2 = true ->
  ~ In openBrace cond ->
  formatControlFlow
    (lead ++ js "@" ++ kw ++ sp1 ++ js "(" ++ cond ++ js ")" ++ sp2
       ++ js "{" ++ rest) indent
  = indent ++ js "@" ++ kw ++ js " (" ++ collapseSpaces cond ++ js ") {".
Proof.
  intros Hlead Hne Hkw Hsp1 Hsp2 Hbr.
  destruct kw as [|k0 kw']; [congruence|]. clear Hne.
  change (js "@") with [atSign]. change (js "(") with [40%N].
  change (js ")") with [41%N]. change (js "{") with [openBrace].
  change (js " (") with [SP; 40%N]. change (js ") {") with [41%N; SP; openBrace].
  remember (k0 :: kw') as kw eqn:Ekw.
  assert (Hkw' : forallb isWord (k0 :: kw') = true)
    by (rewrite <- Ekw; exact Hkw).
  assert (Hw : forall c, In c kw -> isSpace c = false).
  { intros c Hc. apply word_not_space.
    now apply (proj1 (forallb_forall isWord kw) Hkw). }
  destruct (trim_keeps_body lead rest atSign openBrace
              (kw ++ sp1 ++ 40%N :: cond ++ 41%N :: sp2)
              Hlead eq_refl eq_refl) as [tail' Et].
  assert (Ev : lead ++ [atSign] ++ kw ++ sp1 ++ [40%N] ++ cond ++ [41%N]
                 ++ sp2 ++ [openBrace] ++ rest
               = lead ++ (atSign :: (kw ++ sp1 ++ 40%N :: cond ++ 41%N :: sp2)
                            ++ [openBrace]) ++ rest).
  { norm_app. }
  rewrite Ev. clear Ev. unfold formatControlFlow. rewrite Et. clear Et.
  set (s1 := collapseRun isSpace false sp1).
  set (s2 := collapseRun isSpace false sp2).
  set (C := collapseRun isSpace false cond).
  set (T := collapseRun isSpace false tail').
  assert (En : collapseSpaces
                 ((atSign :: (kw ++ sp1 ++ 40%N :: cond ++ 41%N :: sp2)
                     ++ [openBrace]) ++ tail')
               = atSign :: kw ++ (s1 ++ 40%N :: C ++ 41%N :: s2)
                   ++ openBrace :: T).
  { unfold collapseSpaces. rewrite replace_plus.
    replace ((atSign :: (kw ++ sp1 ++ 40%N :: cond ++ 41%N :: sp2)
                ++ [openBrace]) ++ tail')
      with (atSign :: kw ++ sp1 ++ 40%N :: cond ++ 41%N :: sp2
              ++ openBrace :: tail')
      by norm_app.
    cbn [collapseRun]. change (isSpace atSign) with false. cbv iota.
    rewrite collapseRun_keep by exact Hw.
    rewrite !collapseRun_through by reflexivity.
    fold s1 s2 C T. norm_app. }
  rewrite En. clear En.
  assert (Hs1 : s1 = [] \/ s1 = [SP]) by now apply collapsed_spaces.
  assert (Hs2 : s2 = [] \/ s2 = [SP]) by now apply collapsed_spaces.
  assert (HC : forallb isDot C = true) by apply collapseRun_dot.
  assert (HCb : ~ In openBrace C) by now apply collapseRun_no_brace.
  assert (Hd : forallb isDot (s1 ++ 40%N :: C ++ 41%N :: s2) = true).
  { rewrite forallb_app. cbn [forallb]. rewrite forallb_app. cbn [forallb].
    rewrite HC.
    destruct Hs1 as [-> | ->]; destruct Hs2 as [-> | ->]; reflexivity. }
  assert (Hb : ~ In openBrace (s1 ++ 40%N :: C ++ 41%N :: s2)).
  { intros Hin. apply in_app_or in Hin as [Hin|[Hin|Hin]];
      [destruct Hs1 as [E | E]; rewrite E in Hin;
       [destruct Hin | destruct Hin as [Hin|[]]; discriminate]
      | discriminate |].
    apply in_app_or in Hin as [Hin|[Hin|Hin]];
      [now apply HCb | discriminate |].
    destruct Hs2 as [E | E]; rewrite E in Hin;
      [destruct Hin | destruct Hin as [Hin|[]]; discriminate]. }
  destruct (directiveRe_condition k0 kw' Hkw' s1 Hs1 (C ++ 41%N :: s2) T
              Hd Hb) as [caps Ed].
  rewrite <- Ekw in Ed. rewrite Ed. clear Ed. cbn [fmatch].
  assert (Edir : trim (sliceEnds 0 1
                         (atSign :: kw ++ (s1 ++ 40%N :: C ++ 41%N :: s2)
                            ++ [openBrace]))
                 = atSign :: kw ++ s1 ++ 40%N :: C ++ [41%N]).
  { replace (atSign :: kw ++ (s1 ++ 40%N :: C ++ 41%N :: s2) ++ [openBrace])
      with ((atSign :: kw ++ s1 ++ 40%N :: C ++ 41%N :: s2) ++ [openBrace])
      by norm_app.
    rewrite sliceEnds_last.
    replace (atSign :: kw ++ s1 ++ 40%N :: C ++ 41%N :: s2)
      with ((atSign :: (kw ++ s1 ++ 40%N :: C) ++ [41%N]) ++ s2)
      by norm_app.
    rewrite trim_spaces_r
      by (destruct Hs2 as [-> | ->]; reflexivity).
    rewrite trim_fixed by reflexivity.
    norm_app. }
  rewrite Edir. clear Edir.
  assert (Hd2 : forallb isDot (40%N :: C ++ [41%N]) = true).
  { cbn [forallb]. rewrite forallb_app, HC. reflexivity. }
  destruct (directivePartsRe_condition k0 kw' Hkw' s1 Hs1 (C ++ [41%N]) Hd2)
    as [f [Ef [G1 G2]]].
  rewrite <- Ekw in Ef, G1. rewrite Ef, G2, G1. cbn [truthy tpl].
  change (40%N :: C ++ [41%N]) with ((40%N :: C) ++ [41%N]) at 1.
  change ((40%N :: C) ++ [41%N]) with (40%N :: C ++ [41%N]).
  rewrite trim_fixed by reflexivity.
  unfold C, collapseSpaces. rewrite replace_plus.
  change (js " {") with [SP; openBrace].
  norm_app.
Qed.

Lemma formatControlFlow_condition_witness :
  formatControlFlow
    (js "  " ++ js "@" ++ js "if" ++ js "" ++ js "(" ++ js "a   &&  b"
       ++ js ")" ++ js "  " ++ js "{" ++ js " x") (js "    ")
  = js "    " ++ js "@" ++ js "if" ++ js " ("
      ++ collapseSpaces (js "a   &&  b") ++ js ") {".
Proof.
  apply formatControlFlow_condition; try reflexivity.
  - discriminate.
  - vm_compute. intuition discriminate.
Defined.
